(** * YOLO output post-processing ([yolo_detect.py]): a shallow embedding

    The functions [get_boxes], [parse_yolo_output], [get_candidate_objects]
    and [iou] of [yolo_detect.py] are embedded below.

    Numbers.  The functions are embedded twice.  The properties that hold
    for the operations of the code in the code's order, whatever the
    rounding, are proved on exact rationals ([Q]); there the one place where
    the program can divide by zero, the last line of [iou], returns a value
    of [npfloat], which adds the IEEE results of such a division ([nan],
    [inf], [-inf]).  The properties that depend on the values float64
    arithmetic gives (the numbers of the concrete scenario, a zero divisor
    in [iou]) are proved on the second embedding, the module [Binary64],
    whose numbers are binary64 floats.

    Arrays.  A C-contiguous NumPy array is a flat list together with the
    index arithmetic of its shape.  The network output handed to
    [get_candidate_objects] is the caller's [buffer]; slices and reshapes of
    it are views (a base offset and a size), and the in-place statements of
    [get_boxes] are updates of the buffer through such a view. *)

From Stdlib Require Import QArith Lqa.
From Stdlib Require Floats.
From stdpp Require Import list strings sorting.

Local Open Scope nat_scope.

(** ** Rational helpers *)

#[global] Instance Q_inhabited : Inhabited Q := populate 0%Q.

(** [x < y] as a boolean. *)
Definition Qltb (x y : Q) : bool := negb (Qle_bool y x).

(** ** Exceptions, and computations over the caller's buffer *)

Inductive exn : Type :=
| ValueError   (* np.reshape: size of the array does not fit the shape *)
| IndexError.  (* an index out of range *)

Abbreviation buffer := (list Q).

(** A computation ends with a value or with a raised exception; either way
    the buffer is left in the state the executed statements put it in. *)
Inductive outcome (A : Type) : Type :=
| Ok (a : A) (s : buffer)
| Raise (e : exn) (s : buffer).
Arguments Ok {A} a s.
Arguments Raise {A} e s.

Definition M (A : Type) : Type := buffer → outcome A.

Definition ret {A} (a : A) : M A := fun s => Ok a s.
Definition raise {A} (e : exn) : M A := fun s => Raise e s.
Definition bind {A B} (m : M A) (k : A → M B) : M B :=
  fun s => match m s with
           | Ok a s' => k a s'
           | Raise e s' => Raise e s'
           end.
(** Read the whole buffer; apply an in-place update to it. *)
Definition get : M buffer := fun s => Ok s s.
Definition modify (f : buffer → buffer) : M () := fun s => Ok () (f s).

Notation "'do' x <- m ; k" := (bind m (fun x => k))
  (at level 10, x name, m at level 100, k at level 200, only parsing).
Notation "'run' m ; k" := (bind m (fun _ => k))
  (at level 10, m at level 100, k at level 200, only parsing).

Definition final_buffer {A} (o : outcome A) : buffer :=
  match o with Ok _ s => s | Raise _ s => s end.

(** ** Views *)

(** A one-dimensional window [base .. base + size) of the buffer. *)
Record view : Type := mkview { base : nat; size : nat }.

(** [output[lo:hi]] on a sequence of length [len] (bounds are clamped). *)
Definition slice (lo hi len : nat) : view :=
  {| base := lo `min` len; size := (hi `min` len) - (lo `min` len) |}.

(** [np.reshape(v, shape)]: the same memory when the sizes agree. *)
Definition reshape (v : view) (shape : list nat) : M view :=
  if size v =? foldr Nat.mul 1 shape then ret v else raise ValueError.

(** Element [i] of a view, read from buffer [s]. *)
Definition read (v : view) (s : buffer) (i : nat) : Q := s !!! (base v + i).

(** An in-place statement [v[...] op= ...]: every element of the view is
    replaced by [f i x], [i] its flat index inside the view. *)
Definition update_view (v : view) (f : nat → Q → Q) (s : buffer) : buffer :=
  imap (fun p x =>
          if (base v <=? p) && (p <? base v + size v) then f (p - base v) x
          else x) s.

(** ** Integer arrays used by [get_boxes] *)

(** [np.arange(n)] *)
Definition arange (n : nat) : list Z := Z.of_nat <$> seq 0 n.

(** [a[:, np.newaxis]]: a column, shape (n, 1). *)
Definition newaxis_col (a : list Z) : list (list Z) := (fun x => [x]) <$> a.

(** [l] repeated [n] times along its own axis. *)
Definition tile_axis {A} (n : nat) (l : list A) : list A := mjoin (replicate n l).

(** [np.tile(a, (r0, r1, r2))] for a two-dimensional [a]: [a] is promoted to
    shape (1, n, m) and repeated [r0], [r1], [r2] times along the axes. *)
Definition tile3 (a : list (list Z)) (r0 r1 r2 : nat) : list (list (list Z)) :=
  tile_axis r0 [tile_axis r1 (tile_axis r2 <$> a)].

(** [np.transpose(a, (1, 0, 2))] *)
Definition transpose_102 (a : list (list (list Z))) : list (list (list Z)) :=
  (fun j => (fun plane => plane !!! j) <$> a) <$> seq 0 (length (a !!! 0)).

Definition get3 (a : list (list (list Z))) (i j k : nat) : Z := ((a !!! i) !!! j) !!! k.

(** ** [get_boxes] *)

(** Position [(i, j, k, c)] of flat index [q] in shape (g, g, nb, 4). *)
Definition ix_row (g nb q : nat) : nat := q / (g * nb * 4).
Definition ix_col (g nb q : nat) : nat := (q / (nb * 4)) `mod` g.
Definition ix_box (nb q : nat) : nat := (q / 4) `mod` nb.
Definition ix_comp (q : nat) : nat := q `mod` 4.

Definition get_boxes (output : view) (img_size : Z * Z)
    (grid_size num_boxes : nat) : M view :=
  let w_img := inject_Z (snd img_size) in
  let h_img := inject_Z (fst img_size) in
  do boxes <- reshape output [grid_size; grid_size; num_boxes; 4];
  let offset := tile3 (newaxis_col (arange grid_size)) grid_size 1 num_boxes in
  let at_ (a : list (list (list Z))) (q : nat) : Q :=
    inject_Z (get3 a (ix_row grid_size num_boxes q)
                     (ix_col grid_size num_boxes q) (ix_box num_boxes q)) in
  (* boxes[:, :, :, 0] += offset *)
  run modify (update_view boxes (fun q x =>
    if ix_comp q =? 0 then (x + at_ offset q)%Q else x));
  (* boxes[:, :, :, 1] += np.transpose(offset, (1, 0, 2)) *)
  run modify (update_view boxes (fun q x =>
    if ix_comp q =? 1 then (x + at_ (transpose_102 offset) q)%Q else x));
  (* boxes[:, :, :, 0:2] /= 7.0 *)
  run modify (update_view boxes (fun q x =>
    if ix_comp q <? 2 then (x / 7)%Q else x));
  (* boxes[:, :, :, 2:4] *= boxes[:, :, :, 2:4] *)
  run modify (update_view boxes (fun q x =>
    if (2 <=? ix_comp q) && (ix_comp q <? 4) then (x * x)%Q else x));
  (* boxes[:, :, :, [0, 2]] *= w_img *)
  run modify (update_view boxes (fun q x =>
    if (ix_comp q =? 0) || (ix_comp q =? 2) then (x * w_img)%Q else x));
  (* boxes[:, :, :, [1, 3]] *= h_img *)
  run modify (update_view boxes (fun q x =>
    if (ix_comp q =? 1) || (ix_comp q =? 3) then (x * h_img)%Q else x));
  ret boxes.

(** ** [parse_yolo_output] *)

Section decode.
(** The three local constants of [parse_yolo_output]. *)
Variables num_classes num_boxes grid_size : nat.

(** [probs[:, :, i, j] = class_probs[:, :, j] * confidences[:, :, i]], on
    [probs] of shape (grid_size, grid_size, num_boxes, num_classes). *)
Definition assign_probs (class_probs confidences : view) (s : buffer)
    (i j : nat) (probs : list Q) : list Q :=
  imap (fun p x =>
          if ((p / num_classes) `mod` num_boxes =? i) && (p `mod` num_classes =? j)
          then let cell := p / (num_boxes * num_classes) in
               (read class_probs s (cell * num_classes + j)
                * read confidences s (cell * num_boxes + i))%Q
          else x) probs.

Definition parse_yolo_output_with (img_size : Z * Z) : M (view * list Q) :=
  do output <- get;
  let len := length output in
  let sc_offset := grid_size * grid_size * num_classes in
  let box_offset := sc_offset + grid_size * grid_size * num_boxes in
  do class_probs <- reshape (slice 0 sc_offset len) [grid_size; grid_size; num_classes];
  do confidences <- reshape (slice sc_offset box_offset len) [grid_size; grid_size; num_boxes];
  let probs := replicate (grid_size * grid_size * num_boxes * num_classes) 0%Q in
  let probs :=
    foldl (fun probs i =>
             foldl (fun probs j => assign_probs class_probs confidences output i j probs)
                   probs (seq 0 num_classes))
          probs (seq 0 num_boxes) in
  do boxes <- get_boxes (slice box_offset len len) img_size grid_size num_boxes;
  ret (boxes, probs).
End decode.

Definition num_classes : nat := 20.
Definition num_boxes : nat := 2.
Definition grid_size : nat := 7.

Definition parse_yolo_output : Z * Z → M (view * list Q) :=
  parse_yolo_output_with num_classes num_boxes grid_size.

(** ** [iou] *)

(** A row of the boxes array: [box[0]], [box[1]], [box[2]], [box[3]]. *)
Record box : Type := mkbox { box_x : Q; box_y : Q; box_w : Q; box_h : Q }.
#[global] Instance box_inhabited : Inhabited box := populate (mkbox 0 0 0 0).

(** The value of a NumPy division: a number, or what IEEE arithmetic gives
    for a zero divisor. *)
Inductive npfloat : Type :=
| finite (q : Q)
| inf
| neg_inf
| nan.

Definition np_div (n d : Q) : npfloat :=
  if Qeq_bool d 0 then
    if Qeq_bool n 0 then nan else if Qltb 0 n then inf else neg_inf
  else finite (n / d).

(** [x > t] for such a value: false for [nan]. *)
Definition np_gt (x : npfloat) (t : Q) : bool :=
  match x with
  | finite q => Qltb t q
  | inf => true
  | neg_inf | nan => false
  end.

(** Python's [min(a, b)] and [max(a, b)]: the first argument unless the
    second is strictly smaller (larger). *)
Definition pymin (a b : Q) : Q := if Qltb b a then b else a.
Definition pymax (a b : Q) : Q := if Qltb a b then b else a.

Definition int_tb (box1 box2 : box) : Q :=
  (pymin (box_x box1 + (1#2) * box_w box1) (box_x box2 + (1#2) * box_w box2)
   - pymax (box_x box1 - (1#2) * box_w box1) (box_x box2 - (1#2) * box_w box2))%Q.

Definition int_lr (box1 box2 : box) : Q :=
  (pymin (box_y box1 + (1#2) * box_h box1) (box_y box2 + (1#2) * box_h box2)
   - pymax (box_y box1 - (1#2) * box_h box1) (box_y box2 - (1#2) * box_h box2))%Q.

Definition intersection (box1 box2 : box) : Q :=
  (pymax 0 (int_tb box1 box2) * pymax 0 (int_lr box1 box2))%Q.

(** The divisor of the last line of [iou]. *)
Definition union_area (box1 box2 : box) : Q :=
  (box_w box1 * box_h box1 + box_w box2 * box_h box2 - intersection box1 box2)%Q.

Definition iou (box1 box2 : box) : npfloat :=
  np_div (intersection box1 box2) (union_area box1 box2).

(** ** [get_candidate_objects] *)

Definition classes : list string :=
  ["aeroplane"; "bicycle"; "bird"; "boat"; "bottle"; "bus"; "car";
   "cat"; "chair"; "cow"; "diningtable"; "dog"; "horse"; "motorbike";
   "person"; "pottedplant"; "sheep"; "sofa"; "train"; "tvmonitor"]%string.

Definition threshold : Q := 2 # 10.
Definition iou_threshold : Q := 5 # 10.

(** One element of the result: [[classes[class_id], box[0], box[1], box[2],
    box[3], prob]]. *)
Record detection : Type := mkdetection {
  det_label : string;
  det_x : Q; det_y : Q; det_w : Q; det_h : Q;
  det_score : Q
}.

(** Position [(row, col, box, class)] of flat index [p] in the shape
    (grid_size, grid_size, num_boxes, num_classes) of [probs]. *)
Definition p_row (p : nat) : nat := p / (grid_size * num_boxes * num_classes).
Definition p_col (p : nat) : nat := (p / (num_boxes * num_classes)) `mod` grid_size.
Definition p_box (p : nat) : nat := (p / num_classes) `mod` num_boxes.
Definition p_class (p : nat) : nat := p `mod` num_classes.

(** Flat index of [(row, col, box)] in shape (grid_size, grid_size, num_boxes). *)
Definition cell_box (rcb : nat * nat * nat) : nat :=
  let '(row, col, b) := rcb in (row * grid_size + col) * num_boxes + b.

(** Flat indices of the true entries of a mask, in C order, counted from [n]. *)
Fixpoint nonzero_from (n : nat) (mask : list bool) : list nat :=
  match mask with
  | [] => []
  | b :: mask' => if b then n :: nonzero_from (S n) mask' else nonzero_from (S n) mask'
  end.

(** [np.nonzero(mask)] on the shape of [probs]: one index tuple per true
    entry (the tuple of four index arrays, read element-wise). *)
Definition nonzero (mask : list bool) : list (nat * nat * nat * nat) :=
  (fun p => (p_row p, p_col p, p_box p, p_class p)) <$> nonzero_from 0 mask.

(** [a[mask]] for a boolean mask of the shape of [a]. *)
Fixpoint compress {A} (mask : list bool) (a : list A) : list A :=
  match mask, a with
  | b :: mask', x :: a' => if b then x :: compress mask' a' else compress mask' a'
  | _, _ => []
  end.

(** [a[idx]] for an index array [idx]. *)
Definition fancy {A} (a : list A) (idx : list nat) : M (list A) :=
  match mapM (fun i => a !! i) idx with
  | Some r => ret r
  | None => raise IndexError
  end.

(** [np.argmax] of a row of booleans: the first maximal entry. *)
Fixpoint first_true (row : list bool) : option nat :=
  match row with
  | [] => None
  | b :: row' => if b then Some 0 else S <$> first_true row'
  end.
Definition argmax_bool (row : list bool) : nat := default 0 (first_true row).

(** [np.argmax(mask, axis=3)]: shape (grid_size, grid_size, num_boxes). *)
Definition argmax_axis3 (mask : list bool) : list nat :=
  (fun q => argmax_bool (take num_classes (drop (q * num_classes) mask)))
    <$> seq 0 (grid_size * grid_size * num_boxes).

(** Row [(row, col, b)] of the boxes array, read through its view. *)
Definition box_at (boxes : view) (s : buffer) (rcb : nat * nat * nat) : box :=
  let q := cell_box rcb * 4 in
  mkbox (read boxes s q) (read boxes s (q + 1)) (read boxes s (q + 2)) (read boxes s (q + 3)).

(** The inner loop of the suppression, for a fixed [i]. *)
Definition suppress_from (boxes_filtered : list box) (i : nat) (probs_filtered : list Q) : list Q :=
  foldl (fun probs_filtered j =>
           if np_gt (iou (boxes_filtered !!! i) (boxes_filtered !!! j)) iou_threshold
           then <[j := 0%Q]> probs_filtered
           else probs_filtered)
        probs_filtered (seq (i + 1) (length boxes_filtered - (i + 1))).

(** Non-maxima suppression: the loop over [enumerate(boxes_filtered)]. *)
Definition suppress (boxes_filtered : list box) (probs_filtered : list Q) : list Q :=
  foldl (fun probs_filtered i =>
           if Qeq_bool (probs_filtered !!! i) 0 then probs_filtered
           else suppress_from boxes_filtered i probs_filtered)
        probs_filtered (seq 0 (length boxes_filtered)).

(** One row of the result, from [(class_id, box, prob)]; [classes[class_id]]
    raises for a class id outside the table. *)
Definition as_detection (c : nat * box * Q) : option detection :=
  name ← classes !! c.1.1;
  Some (mkdetection name (box_x c.1.2) (box_y c.1.2) (box_w c.1.2) (box_h c.1.2) c.2).

(** The final loop over [zip(classes_num_filtered, boxes_filtered,
    probs_filtered)]. *)
Definition make_result (classes_num_filtered : list nat) (boxes_filtered : list box)
    (probs_filtered : list Q) : M (list detection) :=
  match mapM as_detection (zip (zip classes_num_filtered boxes_filtered) probs_filtered) with
  | Some result => ret result
  | None => raise IndexError
  end.

Section select.
(** [np.argsort] with its default kind: NumPy documents the result as an
    index array that sorts its argument in ascending order, and leaves
    the order of equal elements open. *)
Variable argsort : list Q → list nat.

Definition get_candidate_objects (img_size : Z * Z) : M (list detection) :=
  do parsed <- parse_yolo_output img_size;
  let boxes := fst parsed in
  let probs := snd parsed in
  do s <- get;
  let filter_mat_probs := Qle_bool threshold <$> probs in
  let filter_mat_boxes := (fun ix => (ix.1.1.1, ix.1.1.2, ix.1.2)) <$> nonzero filter_mat_probs in
  let boxes_filtered := box_at boxes s <$> filter_mat_boxes in
  let probs_filtered := compress filter_mat_probs probs in
  let classes_num_filtered :=
    (fun rcb => argmax_axis3 filter_mat_probs !!! cell_box rcb) <$> filter_mat_boxes in
  let idx := reverse (argsort probs_filtered) in
  do boxes_filtered <- fancy boxes_filtered idx;
  do probs_filtered <- fancy probs_filtered idx;
  do classes_num_filtered <- fancy classes_num_filtered idx;
  (* Non-Maxima Suppression *)
  let probs_filtered := suppress boxes_filtered probs_filtered in
  let filter_iou := Qltb 0 <$> probs_filtered in
  let boxes_filtered := compress filter_iou boxes_filtered in
  let probs_filtered := compress filter_iou probs_filtered in
  let classes_num_filtered := compress filter_iou classes_num_filtered in
  make_result classes_num_filtered boxes_filtered probs_filtered.
End select.

(** An insertion sort by index, which keeps equal elements in their
    original order: one function that meets the contract of [np.argsort]
    ([argsort_spec] below).  NumPy's own sort need not order equal elements
    this way. *)
Fixpoint insert_index (a : list Q) (i : nat) (sorted : list nat) : list nat :=
  match sorted with
  | [] => [i]
  | j :: sorted' =>
      if Qltb (a !!! i) (a !!! j) then i :: j :: sorted'
      else j :: insert_index a i sorted'
  end.

Definition insertion_argsort (a : list Q) : list nat :=
  foldl (fun sorted i => insert_index a i sorted) [] (seq 0 (length a)).

(** *** The stages of [get_candidate_objects], named

    The arrays [get_candidate_objects] builds before sorting, as functions of
    what [parse_yolo_output] returned. *)

Definition filter_mat_probs (probs : list Q) : list bool := Qle_bool threshold <$> probs.

Definition filter_mat_boxes (probs : list Q) : list (nat * nat * nat) :=
  (fun ix => (ix.1.1.1, ix.1.1.2, ix.1.2)) <$> nonzero (filter_mat_probs probs).

Definition filtered_boxes (boxes : view) (s : buffer) (probs : list Q) : list box :=
  box_at boxes s <$> filter_mat_boxes probs.

Definition filtered_probs (probs : list Q) : list Q :=
  compress (filter_mat_probs probs) probs.

Definition filtered_classes (probs : list Q) : list nat :=
  (fun rcb => argmax_axis3 (filter_mat_probs probs) !!! cell_box rcb)
    <$> filter_mat_boxes probs.

(** The candidates in the order of the filter: [(class_id, box, prob)]. *)
Definition candidates (boxes : view) (s : buffer) (probs : list Q) : list (nat * box * Q) :=
  zip (zip (filtered_classes probs) (filtered_boxes boxes s probs)) (filtered_probs probs).

(** The statements of [get_candidate_objects] from the reordering by [idx]
    on. *)
Definition select (idx : list nat) (boxes_filtered : list box) (probs_filtered : list Q)
    (classes_num_filtered : list nat) : M (list detection) :=
  do boxes_filtered <- fancy boxes_filtered idx;
  do probs_filtered <- fancy probs_filtered idx;
  do classes_num_filtered <- fancy classes_num_filtered idx;
  let probs_filtered := suppress boxes_filtered probs_filtered in
  let filter_iou := Qltb 0 <$> probs_filtered in
  let boxes_filtered := compress filter_iou boxes_filtered in
  let probs_filtered := compress filter_iou probs_filtered in
  let classes_num_filtered := compress filter_iou classes_num_filtered in
  make_result classes_num_filtered boxes_filtered probs_filtered.

(** What [np.argsort] is documented to return: the indices of its argument,
    each once, in an order that makes the values ascend. *)
Definition argsort_spec (argsort : list Q → list nat) : Prop :=
  ∀ a, argsort a ≡ₚ seq 0 (length a) ∧ StronglySorted Qle ((a !!!.) <$> argsort a).

(** The buffer of the concrete scenario: class probability 1.0 at
    (row 3, col 3, class 14), confidence 1.0 at (row 3, col 3, box 0), raw
    geometry (0.5, 0.5, 0.1, 0.1) of that box, zero elsewhere. *)
Definition scenario_buffer : buffer :=
  <[494 := 1%Q]> (<[1028 := 1%Q]> (<[1270 := 1#2]> (<[1271 := 1#2]>
    (<[1272 := 1#10]> (<[1273 := 1#10]> (replicate 1470 0%Q)))))).


(** * Definitions used in the statements *)

(** Whether position [p] of the buffer lies in view [v]. *)
Definition in_view (v : view) (p : nat) : bool :=
  (base v <=? p) && (p <? base v + size v).

(** The value the six statements of [get_boxes] give to the element at flat
    index [q] of the view, from its raw value [x]. *)
Definition resolved (img_size : Z * Z) (g nb q : nat) (x : Q) : Q :=
  let w_img := inject_Z (snd img_size) in
  let h_img := inject_Z (fst img_size) in
  match ix_comp q with
  | 0 => ((x + inject_Z (Z.of_nat (ix_col g nb q))) / 7 * w_img)%Q
  | 1 => ((x + inject_Z (Z.of_nat (ix_row g nb q))) / 7 * h_img)%Q
  | 2 => (x * x * w_img)%Q
  | _ => (x * x * h_img)%Q
  end.

(** Length of the network output for [C] classes, [B] boxes per cell and an
    [S] by [S] grid. *)
Definition raw_length (C B S : nat) : nat := S * S * C + S * S * B + S * S * B * 4.

(** Offset of the geometry region in the buffer. *)
Definition box_offset : nat :=
  grid_size * grid_size * num_classes + grid_size * grid_size * num_boxes.

(** [new] is [old] with some entries replaced by [0.0]. *)
Definition zeroed (new old : list Q) : Prop :=
  length new = length old ∧ ∀ k, new !!! k = old !!! k ∨ new !!! k = 0%Q.

(** The result row of a candidate whose class id is in the table. *)
Definition detection_of (c : nat * box * Q) : detection :=
  mkdetection (classes !!! c.1.1) (box_x c.1.2) (box_y c.1.2) (box_w c.1.2) (box_h c.1.2) c.2.

(** The candidates in the order [get_candidate_objects] sorts them into:
    position [k] holds the candidate that the filter enumerated at position
    [idx[k]], for [idx = np.argsort(probs_filtered)[::-1]]. *)
Definition sorted_candidates (argsort : list Q → list nat) (boxes : view) (s : buffer)
    (probs : list Q) : list (nat * box * Q) :=
  (candidates boxes s probs !!!.) <$> reverse (argsort (filtered_probs probs)).

(** The mask [filter_iou] over the sorted candidates: true for the entries
    the suppression loop left positive. *)
Definition survivors (argsort : list Q → list nat) (boxes : view) (s : buffer)
    (probs : list Q) : list bool :=
  let idx := reverse (argsort (filtered_probs probs)) in
  Qltb 0 <$> suppress ((filtered_boxes boxes s probs !!!.) <$> idx)
                      ((filtered_probs probs !!!.) <$> idx).

(** Order of the indices in the result of the insertion sort: by value, and
    by position among equal values. *)
Definition key_index_lt (a : list Q) (i j : nat) : Prop :=
  (a !!! i < a !!! j)%Q ∨ ((a !!! i == a !!! j)%Q ∧ i < j).

(** A buffer with one class of probability 1 in cell (0, 0) and both boxes
    of that cell at confidence 1; the second box lies inside the first and
    covers more than half of it. *)
Definition tie_buffer : buffer :=
  <[0 := 1%Q]> (<[980 := 1%Q]> (<[981 := 1%Q]>
    (<[1078 := 1#2]> (<[1079 := 1#2]> (<[1080 := 1%Q]> (<[1081 := 1%Q]>
    (<[1082 := 1#2]> (<[1083 := 1#2]> (<[1084 := 9#10]> (<[1085 := 9#10]>
      (replicate 1470 0%Q))))))))))).

(** The two boxes of cell (0, 0) of [tie_buffer], resolved for a 700 by 700
    image. *)
Definition tie_box_0 : box :=
  mkbox (((1#2) + 0) / 7 * 700) (((1#2) + 0) / 7 * 700) (1 * 1 * 700) (1 * 1 * 700).
Definition tie_box_1 : box :=
  mkbox (((1#2) + 0) / 7 * 700) (((1#2) + 0) / 7 * 700)
        ((9#10) * (9#10) * 700) ((9#10) * (9#10) * 700).

(** Cell (0, 0): class 0 with probability 0.5, class 1 with probability 1.0,
    box 0 with confidence 1.0 and raw geometry (0.5, 0.5, 0.5, 0.5). *)
Definition two_class_buffer : buffer :=
  <[0 := 1#2]> (<[1 := 1%Q]> (<[980 := 1%Q]>
    (<[1078 := 1#2]> (<[1079 := 1#2]> (<[1080 := 1#2]> (<[1081 := 1#2]>
      (replicate 1470 0%Q))))))).

(** ** Definitions for the further properties *)


(** The box of a result row: [result[1:5]]. *)
Definition det_box (d : detection) : box :=
  mkbox (det_x d) (det_y d) (det_w d) (det_h d).

(** Index [(row, col, box)] of the box that flat index [p] of [probs]
    belongs to. *)
Definition p_rcb (p : nat) : nat * nat * nat := (p_row p, p_col p, p_box p).

(** The candidate that the filter makes of flat index [p] of [probs]. *)
Definition candidate_at (boxes : view) (s : buffer) (probs : list Q) (p : nat)
    : nat * box * Q :=
  (argmax_axis3 (filter_mat_probs probs) !!! cell_box (p_rcb p),
   box_at boxes s (p_rcb p), probs !!! p).

(** An insertion sort that puts an element before the elements equal to it:
    another [argsort], with the opposite order among equal values. *)
Fixpoint insert_index_before (a : list Q) (i : nat) (sorted : list nat) : list nat :=
  match sorted with
  | [] => [i]
  | j :: sorted' =>
      if Qle_bool (a !!! i) (a !!! j) then i :: j :: sorted'
      else j :: insert_index_before a i sorted'
  end.

Definition insertion_argsort_before (a : list Q) : list nat :=
  foldl (fun sorted i => insert_index_before a i sorted) [] (seq 0 (length a)).

(** ** [show_results] and [draw_box] *)

(** Python's [int(v)] of a number: its integer part, rounded toward zero. *)
Definition int_ (v : Q) : Z := Z.quot (Qnum v) (Z.pos (Qden v)).

(** One element of [results] as [show_results] receives it: a name and five
    floats, each of them a number, an infinity or NaN. *)
Record result_row : Type := mkrow {
  row_name : string;
  row_x : npfloat; row_y : npfloat; row_w : npfloat; row_h : npfloat;
  row_score : npfloat
}.

(** The row of a detection, all of whose values are numbers. *)
Definition row_of (d : detection) : result_row :=
  mkrow (det_label d) (finite (det_x d)) (finite (det_y d)) (finite (det_w d))
        (finite (det_h d)) (finite (det_score d)).

(** A value passed to [draw_box]. *)
Inductive value : Type :=
| VImage
| VStr (s : string)
| VBox (xmin ymin xmax ymax : Z)
| VNum (v : npfloat).

(** What [show_results] and [draw_box] send out of the program: the line
    printed for a result (the arguments of its [format]), the drawing calls
    of [draw_box] (with its four arguments), and [cv2.imshow]. *)
Inductive output : Type :=
| Console (name : string) (box_x box_y box_w box_h : Z) (confidence : npfloat)
| Drawn (img name box score : value)
| Imshow.

(** A call returns, or raises one of the three exceptions that can arise
    in [show_results]. *)
Inductive ending : Type :=
| Returns
| Raises_TypeError
| Raises_OverflowError
| Raises_ValueError.

(** A float that is a number. *)
Definition is_number (v : npfloat) : Prop := ∃ q, v = finite q.

(** [int(v)] of a float: the integer part of a number; [OverflowError] for
    an infinity and [ValueError] for NaN. *)
Definition int_float (v : npfloat) : Z + ending :=
  match v with
  | finite q => inl (int_ q)
  | inf | neg_inf => inr Raises_OverflowError
  | nan => inr Raises_ValueError
  end.

(** [[int(v) for v in vs]]: the elements are converted in order, and the
    first conversion that raises ends the comprehension. *)
Fixpoint ints (vs : list npfloat) : list Z + ending :=
  match vs with
  | [] => inl []
  | v :: vs' =>
      match int_float v with
      | inl z => match ints vs' with
                 | inl zs => inl (z :: zs)
                 | inr e => inr e
                 end
      | inr e => inr e
      end
  end.

(** [draw_box(img, name, box, score)], called with positional arguments:
    a call with another number of arguments raises [TypeError] before the
    body runs. *)
Definition draw_box (arguments : list value) : list output * ending :=
  match arguments with
  | [img; name; box; score] => ([Drawn img name box score], Returns)
  | _ => ([], Raises_TypeError)
  end.

(** The corners [(xmin, ymin, xmax, ymax)] that [show_results] computes
    from the four integers of a result. *)
Definition corners (img_width img_height box_x box_y box_w box_h : Z) : Z * Z * Z * Z :=
  let xmin := Z.max (box_x - box_w / 2) 0 in
  let xmax := Z.min (box_x + box_w / 2) img_width in
  let ymin := Z.max (box_y - box_h / 2) 0 in
  let ymax := Z.min (box_y + box_h / 2) img_height in
  (xmin, ymin, xmax, ymax).

(** The corners for one detection. *)
Definition rectangle (img_width img_height : Z) (result : detection) : Z * Z * Z * Z :=
  corners img_width img_height (int_ (det_x result)) (int_ (det_y result))
          (int_ (det_w result)) (int_ (det_h result)).

(** The loop of [show_results] over the results. *)
Fixpoint show_each (img_width img_height : Z) (results : list result_row)
    : list output * ending :=
  match results with
  | [] => ([], Returns)
  | result :: results' =>
      (* box_x, box_y, box_w, box_h = [int(v) for v in result[1:5]] *)
      match ints [row_x result; row_y result; row_w result; row_h result] with
      | inl [box_x; box_y; box_w; box_h] =>
          let line := Console (row_name result) box_x box_y box_w box_h (row_score result) in
          let '(xmin, ymin, xmax, ymax) :=
            corners img_width img_height box_x box_y box_w box_h in
          (* draw_box(result[0], (xmin, ymin, xmax, ymax), result[5]) *)
          match draw_box [VStr (row_name result); VBox xmin ymin xmax ymax;
                          VNum (row_score result)] with
          | (drawn, Returns) =>
              let '(rest, e) := show_each img_width img_height results' in
              (line :: drawn ++ rest, e)
          | (drawn, e) => (line :: drawn, e)
          end
      | inl _ => ([], Raises_ValueError) (* the unpacking of another number of values *)
      | inr e => ([], e)
      end
  end.

Definition show_results (img_shape : Z * Z) (results : list result_row)
    : list output * ending :=
  let img_width := snd img_shape in
  let img_height := fst img_shape in
  match show_each img_width img_height results with
  | (shown, Returns) => (shown ++ [Imshow], Returns)
  | (shown, e) => (shown, e)
  end.

(** ** [main] *)

(** What [main] sends out: a printed line, the printed list of options, and
    the call of [detect]. *)
Inductive main_output : Type :=
| Print (line : string)
| PrintOpts (opts : list (string * string))
| Detect (model_filename weight_filename img_filename : string).

Definition usage_message : string :=
  "Usage: yolo_detect.py -m <model_file> -w <output_file> -i <img_file>".

(** The loop of [main] over the options, and what follows it. *)
Fixpoint main_loop (opts : list (string * string))
    (model_filename weight_filename img_filename : string) : list main_output :=
  match opts with
  | [] =>
      [Print ("model file is " ++ model_filename);
       Print ("weight file is " ++ weight_filename);
       Print ("image file is " ++ img_filename);
       Detect model_filename weight_filename img_filename]
  | (opt, arg) :: opts' =>
      if String.eqb opt "-h" then [Print usage_message]
      else if String.eqb opt "-m" then main_loop opts' arg weight_filename img_filename
      else if String.eqb opt "-w" then main_loop opts' model_filename arg img_filename
      else if String.eqb opt "-i" then main_loop opts' model_filename weight_filename arg
      else main_loop opts' model_filename weight_filename img_filename
  end.

Section main.
(** [getopt.getopt(argv, "hm:w:i:")]: the options and the remaining
    arguments, or [None] when it raises [GetoptError]. *)
Variable getopt : list string → option (list (string * string) * list string).

Definition main (argv : list string) : list main_output :=
  match getopt argv with
  | None => [Print usage_message]
  | Some (opts, _) =>
      PrintOpts opts ::
      match opts with
      | [] => [Print usage_message]
      | _ => main_loop opts "" "" ""
      end
  end.
End main.

(** The argument of the last option [name] of [opts], [default] when there
    is none. *)
Definition option_value (name : string) (opts : list (string * string)) (default : string)
    : string :=
  List.last (snd <$> List.filter (fun o => String.eqb (fst o) name) opts) default.

(** * The same functions on binary64 values

    Some properties speak of the values themselves (what a division by zero
    returns, the numbers of the concrete scenario) and so depend on the
    rounding of NumPy's [float64].  For them the functions are embedded a
    second time, statement by statement as above, on an array of dtype
    [float64] (NumPy's default, the dtype of an array built from Python
    floats): the numbers are the kernel's binary64 floats, whose operations
    are those of IEEE 754 with rounding to nearest, ties to even. *)

Module Binary64.

Import PrimFloat.

#[global] Instance float_inhabited : Inhabited float := populate 0%float.

(** The conversion of an integer (an element of an integer array, an entry
    of [img.shape]) to [float64]: the nearest float, ties to even. *)
Definition of_Z (z : Z) : float :=
  FloatOps.SF2Prim (SpecFloat.binary_normalize FloatOps.prec FloatOps.emax z 0 false).

(** *** Computations over the caller's buffer *)

Abbreviation buffer := (list float).

Inductive outcome (A : Type) : Type :=
| Ok (a : A) (s : buffer)
| Raise (e : exn) (s : buffer).
Arguments Ok {A} a s.
Arguments Raise {A} e s.

Definition M (A : Type) : Type := buffer → outcome A.

Definition ret {A} (a : A) : M A := fun s => Ok a s.
Definition raise {A} (e : exn) : M A := fun s => Raise e s.
Definition bind {A B} (m : M A) (k : A → M B) : M B :=
  fun s => match m s with
           | Ok a s' => k a s'
           | Raise e s' => Raise e s'
           end.
Definition get : M buffer := fun s => Ok s s.
Definition modify (f : buffer → buffer) : M () := fun s => Ok () (f s).

Declare Scope binary64_scope.
Notation "'do' x <- m ; k" := (bind m (fun x => k))
  (at level 10, x name, m at level 100, k at level 200, only parsing) : binary64_scope.
Notation "'run' m ; k" := (bind m (fun _ => k))
  (at level 10, m at level 100, k at level 200, only parsing) : binary64_scope.
Local Open Scope binary64_scope.

Definition reshape (v : view) (shape : list nat) : M view :=
  if size v =? foldr Nat.mul 1 shape then ret v else raise ValueError.

Definition read (v : view) (s : buffer) (i : nat) : float := s !!! (base v + i).

Definition update_view (v : view) (f : nat → float → float) (s : buffer) : buffer :=
  imap (fun p x =>
          if (base v <=? p) && (p <? base v + size v) then f (p - base v) x
          else x) s.

(** *** [get_boxes] *)

Definition get_boxes (output : view) (img_size : Z * Z)
    (grid_size num_boxes : nat) : M view :=
  let w_img := of_Z (snd img_size) in
  let h_img := of_Z (fst img_size) in
  do boxes <- reshape output [grid_size; grid_size; num_boxes; 4];
  let offset := tile3 (newaxis_col (arange grid_size)) grid_size 1 num_boxes in
  let at_ (a : list (list (list Z))) (q : nat) : float :=
    of_Z (get3 a (ix_row grid_size num_boxes q)
                 (ix_col grid_size num_boxes q) (ix_box num_boxes q)) in
  (* boxes[:, :, :, 0] += offset *)
  run modify (update_view boxes (fun q x =>
    if ix_comp q =? 0 then (x + at_ offset q)%float else x));
  (* boxes[:, :, :, 1] += np.transpose(offset, (1, 0, 2)) *)
  run modify (update_view boxes (fun q x =>
    if ix_comp q =? 1 then (x + at_ (transpose_102 offset) q)%float else x));
  (* boxes[:, :, :, 0:2] /= 7.0 *)
  run modify (update_view boxes (fun q x =>
    if ix_comp q <? 2 then (x / 7)%float else x));
  (* boxes[:, :, :, 2:4] *= boxes[:, :, :, 2:4] *)
  run modify (update_view boxes (fun q x =>
    if (2 <=? ix_comp q) && (ix_comp q <? 4) then (x * x)%float else x));
  (* boxes[:, :, :, [0, 2]] *= w_img *)
  run modify (update_view boxes (fun q x =>
    if (ix_comp q =? 0) || (ix_comp q =? 2) then (x * w_img)%float else x));
  (* boxes[:, :, :, [1, 3]] *= h_img *)
  run modify (update_view boxes (fun q x =>
    if (ix_comp q =? 1) || (ix_comp q =? 3) then (x * h_img)%float else x));
  ret boxes.

(** *** [parse_yolo_output] *)

(** [probs[:, :, i, j] = class_probs[:, :, j] * confidences[:, :, i]] *)
Definition assign_probs (class_probs confidences : view) (s : buffer)
    (i j : nat) (probs : list float) : list float :=
  imap (fun p x =>
          if ((p / num_classes) `mod` num_boxes =? i) && (p `mod` num_classes =? j)
          then let cell := p / (num_boxes * num_classes) in
               (read class_probs s (cell * num_classes + j)
                * read confidences s (cell * num_boxes + i))%float
          else x) probs.

Definition parse_yolo_output (img_size : Z * Z) : M (view * list float) :=
  do output <- get;
  let len := length output in
  let sc_offset := grid_size * grid_size * num_classes in
  let box_offset := sc_offset + grid_size * grid_size * num_boxes in
  do class_probs <- reshape (slice 0 sc_offset len) [grid_size; grid_size; num_classes];
  do confidences <- reshape (slice sc_offset box_offset len) [grid_size; grid_size; num_boxes];
  let probs := replicate (grid_size * grid_size * num_boxes * num_classes) 0%float in
  let probs :=
    foldl (fun probs i =>
             foldl (fun probs j => assign_probs class_probs confidences output i j probs)
                   probs (seq 0 num_classes))
          probs (seq 0 num_boxes) in
  do boxes <- get_boxes (slice box_offset len len) img_size grid_size num_boxes;
  ret (boxes, probs).

(** *** [iou] *)

Record box : Type := mkbox { box_x : float; box_y : float; box_w : float; box_h : float }.
#[global] Instance box_inhabited : Inhabited box := populate (mkbox 0 0 0 0).

(** Python's [min(a, b)] and [max(a, b)]: the first argument unless the
    second is strictly smaller (larger); a comparison with NaN is false. *)
Definition pymin (a b : float) : float := if (b <? a)%float then b else a.
Definition pymax (a b : float) : float := if (a <? b)%float then b else a.

Definition int_tb (box1 box2 : box) : float :=
  (pymin (box_x box1 + 0.5 * box_w box1) (box_x box2 + 0.5 * box_w box2)
   - pymax (box_x box1 - 0.5 * box_w box1) (box_x box2 - 0.5 * box_w box2))%float.

Definition int_lr (box1 box2 : box) : float :=
  (pymin (box_y box1 + 0.5 * box_h box1) (box_y box2 + 0.5 * box_h box2)
   - pymax (box_y box1 - 0.5 * box_h box1) (box_y box2 - 0.5 * box_h box2))%float.

Definition intersection (box1 box2 : box) : float :=
  (pymax 0 (int_tb box1 box2) * pymax 0 (int_lr box1 box2))%float.

(** The divisor of the last line of [iou]. *)
Definition union_area (box1 box2 : box) : float :=
  (box_w box1 * box_h box1 + box_w box2 * box_h box2 - intersection box1 box2)%float.

(** The division is NumPy's: for a zero divisor it gives NaN or an infinity
    (and a warning), not an exception. *)
Definition iou (box1 box2 : box) : float :=
  (intersection box1 box2 / union_area box1 box2)%float.

(** *** [get_candidate_objects] *)

(** 0.2 and 0.5 as [float64]: the float nearest to 0.2, and 0.5. *)
Definition threshold : float := 0x1.999999999999ap-3%float.
Definition iou_threshold : float := 0.5%float.

Record detection : Type := mkdetection {
  det_label : string;
  det_x : float; det_y : float; det_w : float; det_h : float;
  det_score : float
}.

Definition fancy {A} (a : list A) (idx : list nat) : M (list A) :=
  match mapM (fun i => a !! i) idx with
  | Some r => ret r
  | None => raise IndexError
  end.

Definition box_at (boxes : view) (s : buffer) (rcb : nat * nat * nat) : box :=
  let q := cell_box rcb * 4 in
  mkbox (read boxes s q) (read boxes s (q + 1)) (read boxes s (q + 2)) (read boxes s (q + 3)).

Definition suppress_from (boxes_filtered : list box) (i : nat) (probs_filtered : list float)
    : list float :=
  foldl (fun probs_filtered j =>
           if (iou_threshold <? iou (boxes_filtered !!! i) (boxes_filtered !!! j))%float
           then <[j := 0%float]> probs_filtered
           else probs_filtered)
        probs_filtered (seq (i + 1) (length boxes_filtered - (i + 1))).

Definition suppress (boxes_filtered : list box) (probs_filtered : list float) : list float :=
  foldl (fun probs_filtered i =>
           if (probs_filtered !!! i =? 0)%float then probs_filtered
           else suppress_from boxes_filtered i probs_filtered)
        probs_filtered (seq 0 (length boxes_filtered)).

Definition as_detection (c : nat * box * float) : option detection :=
  name ← classes !! c.1.1;
  Some (mkdetection name (box_x c.1.2) (box_y c.1.2) (box_w c.1.2) (box_h c.1.2) c.2).

Definition make_result (classes_num_filtered : list nat) (boxes_filtered : list box)
    (probs_filtered : list float) : M (list detection) :=
  match mapM as_detection (zip (zip classes_num_filtered boxes_filtered) probs_filtered) with
  | Some result => ret result
  | None => raise IndexError
  end.

(** The statements of [get_candidate_objects] from the reordering by [idx]
    on. *)
Definition select (idx : list nat) (boxes_filtered : list box) (probs_filtered : list float)
    (classes_num_filtered : list nat) : M (list detection) :=
  do boxes_filtered <- fancy boxes_filtered idx;
  do probs_filtered <- fancy probs_filtered idx;
  do classes_num_filtered <- fancy classes_num_filtered idx;
  (* Non-Maxima Suppression *)
  let probs_filtered := suppress boxes_filtered probs_filtered in
  let filter_iou := (fun x => (0 <? x)%float) <$> probs_filtered in
  let boxes_filtered := compress filter_iou boxes_filtered in
  let probs_filtered := compress filter_iou probs_filtered in
  let classes_num_filtered := compress filter_iou classes_num_filtered in
  make_result classes_num_filtered boxes_filtered probs_filtered.

Section select.
(** [np.argsort] on an array of floats. *)
Variable argsort : list float → list nat.

Definition get_candidate_objects (img_size : Z * Z) : M (list detection) :=
  do parsed <- parse_yolo_output img_size;
  let boxes := fst parsed in
  let probs := snd parsed in
  do s <- get;
  let filter_mat_probs := (fun x => (threshold <=? x)%float) <$> probs in
  let filter_mat_boxes := (fun ix => (ix.1.1.1, ix.1.1.2, ix.1.2)) <$> nonzero filter_mat_probs in
  let boxes_filtered := box_at boxes s <$> filter_mat_boxes in
  let probs_filtered := compress filter_mat_probs probs in
  let classes_num_filtered :=
    (fun rcb => argmax_axis3 filter_mat_probs !!! cell_box rcb) <$> filter_mat_boxes in
  let idx := reverse (argsort probs_filtered) in
  select idx boxes_filtered probs_filtered classes_num_filtered.
End select.


(** An insertion sort by index, one such function. *)
Fixpoint insert_index (a : list float) (i : nat) (sorted : list nat) : list nat :=
  match sorted with
  | [] => [i]
  | j :: sorted' =>
      if (a !!! i <? a !!! j)%float then i :: j :: sorted'
      else j :: insert_index a i sorted'
  end.

Definition insertion_argsort (a : list float) : list nat :=
  foldl (fun sorted i => insert_index a i sorted) [] (seq 0 (length a)).

(** The buffer of the concrete scenario: class probability 1.0 at
    (row 3, col 3, class 14), confidence 1.0 at (row 3, col 3, box 0), raw
    geometry (0.5, 0.5, 0.1, 0.1) of that box, zero elsewhere; 0.1 is the
    float nearest to it. *)
Definition scenario_buffer : buffer :=
  <[494 := 1%float]> (<[1028 := 1%float]> (<[1270 := 0.5%float]> (<[1271 := 0.5%float]>
    (<[1272 := 0x1.999999999999ap-4%float]> (<[1273 := 0x1.999999999999ap-4%float]>
      (replicate 1470 0%float)))))).

(** The final buffer of a computation. *)
Definition final_buffer {A} (o : outcome A) : buffer :=
  match o with Ok _ s => s | Raise _ s => s end.


(** A box of positive width and height for which rounding makes the
    divisor of [iou] with itself zero: x = 256 + 2^-44, w = 2^-44, h = 1. *)
Definition rounding_box : box := mkbox 0x1.0000000000001p+8 0 0x1p-44 1.


End Binary64.

(** * Properties *)

(** ** The offset arrays *)

Lemma tile_axis_singleton {A} (n : nat) (x : A) : tile_axis n [x] = replicate n x.
Proof. unfold tile_axis. induction n as [|n IH]; csimpl; [done|]. by rewrite IH. Qed.

Lemma tile_axis_once {A} (l : list A) : tile_axis 1 l = l.
Proof. unfold tile_axis. csimpl. apply app_nil_r. Qed.

Lemma tile3_column (a : list Z) (r0 r2 : nat) :
  tile3 (newaxis_col a) r0 1 r2 = replicate r0 ((fun x => replicate r2 x) <$> a).
Proof.
  unfold tile3, newaxis_col. rewrite tile_axis_once, tile_axis_singleton.
  f_equal. rewrite <- list_fmap_compose. apply list_fmap_ext.
  intros _ x _. apply tile_axis_singleton.
Qed.

Lemma lookup_total_replicate_lt {A} `{!Inhabited A} (n i : nat) (x : A) :
  i < n → replicate n x !!! i = x.
Proof. intros H. apply list_lookup_total_correct. by apply lookup_replicate_2. Qed.

Lemma arange_lookup (n j : nat) : j < n → arange n !! j = Some (Z.of_nat j).
Proof.
  intros H. unfold arange. rewrite list_lookup_fmap, lookup_seq_lt by done. done.
Qed.

(** [offset[i, j, k] = j]: the tiled column varies along the second axis. *)
Lemma offset_get3 (g nb i j k : nat) :
  i < g → j < g → k < nb →
  get3 (tile3 (newaxis_col (arange g)) g 1 nb) i j k = Z.of_nat j.
Proof.
  intros Hi Hj Hk. unfold get3. rewrite tile3_column.
  rewrite lookup_total_replicate_lt by done.
  rewrite (list_lookup_total_correct _ j (replicate nb (Z.of_nat j))).
  - by apply lookup_total_replicate_lt.
  - rewrite list_lookup_fmap, arange_lookup by done. done.
Qed.

(** [np.transpose(offset, (1, 0, 2))[i, j, k] = i]. *)
Lemma offset_transposed_get3 (g nb i j k : nat) :
  i < g → j < g → k < nb →
  get3 (transpose_102 (tile3 (newaxis_col (arange g)) g 1 nb)) i j k = Z.of_nat i.
Proof.
  intros Hi Hj Hk.
  pose proof (offset_get3 g nb j i k Hj Hi Hk) as Hoff.
  unfold get3 in *. unfold transpose_102.
  set (offset := tile3 (newaxis_col (arange g)) g 1 nb) in *.
  assert (Hlen0 : length (offset !!! 0) = g).
  { unfold offset. rewrite tile3_column, lookup_total_replicate_lt by lia.
    rewrite length_fmap. unfold arange. by rewrite length_fmap, length_seq. }
  assert (Hlen : length offset = g).
  { unfold offset. rewrite tile3_column. apply length_replicate. }
  rewrite Hlen0.
  rewrite (list_lookup_total_correct _ i ((fun plane => plane !!! i) <$> offset)).
  2:{ rewrite list_lookup_fmap, lookup_seq_lt by done. done. }
  rewrite (list_lookup_total_correct _ j ((offset !!! j) !!! i)).
  - done.
  - rewrite list_lookup_fmap.
    rewrite (list_lookup_lookup_total_lt offset j) by lia. done.
Qed.

(** ** In-place updates through a view *)

Lemma length_update_view v f s : length (update_view v f s) = length s.
Proof. apply length_imap. Qed.

Lemma update_view_lookup v f s p :
  p < length s →
  update_view v f s !!! p =
    if in_view v p then f (p - base v) (s !!! p) else s !!! p.
Proof.
  intros Hp. unfold update_view.
  by rewrite (@list_lookup_total_imap _ _ _ Q_inhabited Q_inhabited).
Qed.

Lemma update_view_inside v f s q :
  q < size v → base v + q < length s →
  read v (update_view v f s) q = f q (read v s q).
Proof.
  intros Hq Hlen. unfold read. rewrite update_view_lookup by done.
  unfold in_view.
  replace (base v <=? base v + q) with true by (symmetry; apply Nat.leb_le; lia).
  replace (base v + q <? base v + size v) with true by (symmetry; apply Nat.ltb_lt; lia).
  simpl. f_equal. lia.
Qed.

Lemma update_view_outside v f s p :
  p < base v → update_view v f s !!! p = s !!! p.
Proof.
  intros Hp. destruct (decide (p < length s)) as [Hlen|Hlen].
  - rewrite update_view_lookup by done. unfold in_view.
    replace (base v <=? p) with false by (symmetry; apply Nat.leb_gt; lia). done.
  - rewrite !list_lookup_total_alt, !lookup_ge_None_2;
      rewrite ?length_update_view; (done || lia).
Qed.

(** ** What [get_boxes] leaves in the buffer *)

Lemma ix_comp_lt q : ix_comp q < 4.
Proof. unfold ix_comp. apply Nat.mod_upper_bound. lia. Qed.

Lemma ix_box_lt nb q : 0 < nb → ix_box nb q < nb.
Proof. intros H. unfold ix_box. apply Nat.mod_upper_bound. lia. Qed.

Lemma ix_col_lt g nb q : 0 < g → ix_col g nb q < g.
Proof. intros H. unfold ix_col. apply Nat.mod_upper_bound. lia. Qed.

Lemma ix_row_lt g nb q : q < g * g * nb * 4 → ix_row g nb q < g.
Proof.
  intros H. unfold ix_row. apply Nat.Div0.div_lt_upper_bound. lia.
Qed.

Lemma shape4_size (g nb : nat) : foldr Nat.mul 1 [g; g; nb; 4] = g * g * nb * 4.
Proof. simpl. lia. Qed.

Lemma get_boxes_raises v img_size g nb s :
  size v ≠ g * g * nb * 4 → get_boxes v img_size g nb s = Raise ValueError s.
Proof.
  intros H. unfold get_boxes, bind, reshape. rewrite shape4_size.
  apply Nat.eqb_neq in H. by rewrite H.
Qed.

Lemma get_boxes_returns v img_size g nb s :
  size v = g * g * nb * 4 →
  ∃ s', get_boxes v img_size g nb s = Ok v s' ∧
        length s' = length s ∧
        (∀ p, p < base v → s' !!! p = s !!! p) ∧
        (∀ q, q < size v → base v + q < length s →
              read v s' q = resolved img_size g nb q (read v s q)).
Proof.
  intros Hsz. unfold get_boxes, bind, reshape. rewrite shape4_size.
  apply Nat.eqb_eq in Hsz as Hsz'. rewrite Hsz'. unfold ret, modify. simpl.
  eexists. split; [reflexivity|]. split; [|split].
  - by rewrite !length_update_view.
  - intros p Hp. by rewrite !update_view_outside.
  - intros q Hq Hlen.
    rewrite !update_view_inside by (rewrite ?length_update_view; done).
    assert (0 < g ∧ 0 < nb) as [Hg Hnb] by (split; destruct g, nb; lia).
    pose proof (ix_comp_lt q) as Hc.
    pose proof (ix_box_lt nb q Hnb) as Hb.
    pose proof (ix_col_lt g nb q Hg) as Hcol.
    assert (ix_row g nb q < g) as Hrow by (apply ix_row_lt; lia).
    rewrite offset_get3, offset_transposed_get3 by done.
    unfold resolved.
    destruct (ix_comp q) as [|[|[|[|c]]]]; simpl; try done; lia.
Qed.

(** ** [parse_yolo_output]: the length of the buffer *)

Lemma shape3_size (g n : nat) : foldr Nat.mul 1 [g; g; n] = g * g * n.
Proof. simpl. lia. Qed.

Lemma parse_raises C B S img_size (s : buffer) :
  length s ≠ raw_length C B S →
  parse_yolo_output_with C B S img_size s = Raise ValueError s.
Proof.
  unfold raw_length, parse_yolo_output_with, bind, get, reshape.
  rewrite !shape3_size. cbn [size slice].
  set (a := S * S * C). set (b := S * S * B). intros Hlen.
  destruct (_ =? a) eqn:Ha; [|done]. cbn [ret].
  destruct (_ =? b) eqn:Hb; [|done]. cbn [ret].
  apply Nat.eqb_eq in Ha, Hb.
  rewrite get_boxes_raises; [done|]. cbn [size slice]. fold b. lia.
Qed.

Lemma parse_returns C B S img_size (s : buffer) :
  length s = raw_length C B S →
  let boxes := mkview (S * S * C + S * S * B) (S * S * B * 4) in
  ∃ probs s',
    parse_yolo_output_with C B S img_size s = Ok (boxes, probs) s' ∧
    length s' = length s ∧
    (∀ p, p < base boxes → s' !!! p = s !!! p) ∧
    (∀ q, q < size boxes →
          read boxes s' q = resolved img_size S B q (read boxes s q)).
Proof.
  intros Hlen boxes. unfold raw_length in Hlen.
  assert (Hv : slice (S * S * C + S * S * B) (length s) (length s) = boxes).
  { unfold slice, boxes. f_equal; lia. }
  destruct (get_boxes_returns boxes img_size S B s eq_refl)
    as (s' & Hrun & Hlen' & Hpre & Hgeo).
  unfold parse_yolo_output_with, bind, get, reshape.
  rewrite !shape3_size. cbn [size slice].
  replace (_ =? S * S * C) with true by (symmetry; apply Nat.eqb_eq; lia).
  cbn [ret].
  replace (_ =? S * S * B) with true by (symmetry; apply Nat.eqb_eq; lia).
  cbn [ret]. rewrite Hv, Hrun. cbn [ret].
  eexists _, s'. split; [reflexivity|]. split; [done|]. split; [done|].
  intros q Hq. apply Hgeo; [done|]. cbn [base size boxes] in *. lia.
Qed.

(** The buffer a call of [get_candidate_objects] leaves behind is the one
    [parse_yolo_output] leaves: the selection writes to copies only. *)
Lemma get_candidate_objects_buffer argsort img_size (s : buffer) :
  final_buffer (get_candidate_objects argsort img_size s) =
  final_buffer (parse_yolo_output img_size s).
Proof.
  unfold get_candidate_objects, bind.
  destruct (parse_yolo_output img_size s) as [[boxes probs] s'|e s']; [|done].
  cbn [get fst snd]. unfold fancy, make_result.
  repeat (match goal with |- context [match mapM ?f ?l with _ => _ end] =>
            destruct (mapM f l) end; cbn [ret raise final_buffer]; try done).
Qed.

(** ** Index arithmetic for the shapes of the program *)

Lemma unravel_geometry (row col b c : nat) :
  row < grid_size → col < grid_size → b < num_boxes → c < 4 →
  let q := cell_box (row, col, b) * 4 + c in
  ix_row grid_size num_boxes q = row ∧ ix_col grid_size num_boxes q = col ∧
  ix_box num_boxes q = b ∧ ix_comp q = c ∧ q < grid_size * grid_size * num_boxes * 4.
Proof.
  unfold ix_row, ix_col, ix_box, ix_comp, cell_box. unfold grid_size, num_boxes.
  intros Hrow Hcol Hb Hc. cbn zeta.
  change (7 * 2 * 4) with 56. change (2 * 4) with 8. change (7 * 7 * 2 * 4) with 392.
  set (q := ((row * 7 + col) * 2 + b) * 4 + c).
  assert (H56 : q / 56 = row).
  { symmetry. apply (Nat.div_unique _ 56 row ((col * 2 + b) * 4 + c)); lia. }
  assert (H8 : q / 8 = row * 7 + col).
  { symmetry. apply (Nat.div_unique _ 8 _ (b * 4 + c)); lia. }
  assert (H4 : q / 4 = (row * 7 + col) * 2 + b).
  { symmetry. apply (Nat.div_unique _ 4 _ c); lia. }
  rewrite H56, H8, H4. repeat split.
  - symmetry. apply (Nat.mod_unique _ 7 row); lia.
  - symmetry. apply (Nat.mod_unique _ 2 (row * 7 + col)); lia.
  - symmetry. apply (Nat.mod_unique _ 4 ((row * 7 + col) * 2 + b)); lia.
  - lia.
Qed.

(** ** The geometry of a box *)

(** C2. For every cell (row, col) and box index b, the box that
    [parse_yolo_output] returns at [(row, col, b)] is, from the raw values
    (rx, ry, rw, rh) the buffer held there,
    cx = (rx + col) / S * image width, cy = (ry + row) / S * image height,
    w = rw^2 * image width, h = rh^2 * image height, with S = grid_size:
    the column goes to x, the row to y, and the sizes are squared. *)
Theorem box_geometry_resolved (img_size : Z * Z) (s : buffer) (row col b : nat) :
  length s = raw_length num_classes num_boxes grid_size →
  row < grid_size → col < grid_size → b < num_boxes →
  let grid := inject_Z (Z.of_nat grid_size) in
  let image_width := inject_Z (snd img_size) in
  let image_height := inject_Z (fst img_size) in
  let raw (c : nat) : Q := s !!! (box_offset + (cell_box (row, col, b) * 4 + c)) in
  ∃ boxes probs s',
    parse_yolo_output img_size s = Ok (boxes, probs) s' ∧
    box_at boxes s' (row, col, b) =
      mkbox ((raw 0%nat + inject_Z (Z.of_nat col)) / grid * image_width)%Q
            ((raw 1%nat + inject_Z (Z.of_nat row)) / grid * image_height)%Q
            (raw 2%nat ^ 2 * image_width)%Q
            (raw 3%nat ^ 2 * image_height)%Q.
Proof.
  intros Hlen Hrow Hcol Hb grid image_width image_height raw.
  destruct (parse_returns num_classes num_boxes grid_size img_size s Hlen)
    as (probs & s' & Hrun & _ & _ & Hgeo).
  eexists _, probs, s'. split; [exact Hrun|].
  unfold box_at.
  assert (Hc : ∀ c, c < 4 →
    read (mkview box_offset (grid_size * grid_size * num_boxes * 4)) s'
         (cell_box (row, col, b) * 4 + c) =
    resolved img_size grid_size num_boxes (cell_box (row, col, b) * 4 + c) (raw c)).
  { intros c Hc.
    destruct (unravel_geometry row col b c Hrow Hcol Hb Hc) as (_ & _ & _ & _ & Hq).
    apply Hgeo. exact Hq. }
  pose proof (Hc 0) as H0. pose proof (Hc 1) as H1.
  pose proof (Hc 2) as H2. pose proof (Hc 3) as H3.
  rewrite Nat.add_0_r in H0. fold box_offset.
  rewrite H0, H1, H2, H3 by lia.
  unfold resolved.
  destruct (unravel_geometry row col b 0 Hrow Hcol Hb) as (E1 & E2 & _ & E3 & _); [lia|].
  rewrite Nat.add_0_r in E1, E2, E3. rewrite E2, E3.
  destruct (unravel_geometry row col b 1 Hrow Hcol Hb) as (-> & -> & _ & -> & _); [lia|].
  destruct (unravel_geometry row col b 2 Hrow Hcol Hb) as (_ & _ & _ & -> & _); [lia|].
  destruct (unravel_geometry row col b 3 Hrow Hcol Hb) as (_ & _ & _ & -> & _); [lia|].
  reflexivity.
Qed.

Lemma box_geometry_resolved_witness :
  ∃ boxes probs s',
    parse_yolo_output (700%Z, 700%Z) scenario_buffer = Ok (boxes, probs) s' ∧
    box_at boxes s' (3, 3, 0) =
      mkbox (((1#2) + 3) / 7 * 700)%Q (((1#2) + 3) / 7 * 700)%Q
            ((1#10) ^ 2 * 700)%Q ((1#10) ^ 2 * 700)%Q.
Proof.
  apply (box_geometry_resolved (700%Z, 700%Z) scenario_buffer 3 3 0).
  - reflexivity.
  - unfold grid_size. lia.
  - unfold grid_size. lia.
  - unfold num_boxes. lia.
Defined.

(** ** The length of the buffer decides the decoding *)

(** C7. For any S, C, B, decoding a buffer succeeds exactly when its length
    is S*S*C + S*S*B + S*S*B*4; a shorter or longer buffer makes the reshape
    raise (NumPy's [ValueError], the program's shape mismatch), returns
    nothing and leaves the buffer as it was. *)
Theorem decode_succeeds_iff_length (C B S : nat) (img_size : Z * Z) (s : buffer) :
  ((∃ r s', parse_yolo_output_with C B S img_size s = Ok r s')
     ↔ length s = S * S * C + S * S * B + S * S * B * 4)
  ∧ (length s ≠ S * S * C + S * S * B + S * S * B * 4
     ↔ parse_yolo_output_with C B S img_size s = Raise ValueError s).
Proof.
  fold (raw_length C B S).
  destruct (decide (length s = raw_length C B S)) as [Hlen|Hlen].
  - destruct (parse_returns C B S img_size s Hlen) as (probs & s' & Hrun & _).
    split; split; intros H; try done.
    + eauto.
    + rewrite Hrun in H. discriminate.
  - pose proof (parse_raises C B S img_size s Hlen) as Hrun.
    split; split; intros H; try done.
    destruct H as (r & s' & H). rewrite Hrun in H. discriminate.
Qed.

(** ** The caller's buffer after the call *)

(** C6, the claim as stated fails: on the scenario buffer the call
    overwrites the geometry of cell (3, 3), box 0. *)
Lemma buffer_mutated_counterexample :
  length scenario_buffer = raw_length num_classes num_boxes grid_size ∧
  final_buffer (get_candidate_objects insertion_argsort (700%Z, 700%Z) scenario_buffer)
    ≠ scenario_buffer ∧
  scenario_buffer !!! 1270%nat = (1 # 2)%Q ∧
  (final_buffer (get_candidate_objects insertion_argsort (700%Z, 700%Z) scenario_buffer)
     !!! 1270%nat == 350)%Q.
Proof.
  split; [reflexivity|]. rewrite get_candidate_objects_buffer.
  split; [|split; [reflexivity|vm_compute; reflexivity]].
  intros H. apply (f_equal (fun l => Qle_bool (l !!! 1270) 1)) in H.
  vm_compute in H. discriminate.
Qed.

(** C6, amended. For every buffer of the right length the call returns, and
    leaves in the caller's buffer: the class probabilities and confidences
    as they were, and in place of each raw geometry value the resolved
    pixel-space value of [get_boxes]; the length is unchanged. *)
Theorem buffer_geometry_overwritten argsort (img_size : Z * Z) (s : buffer) (p : nat) :
  length s = raw_length num_classes num_boxes grid_size →
  let s' := final_buffer (get_candidate_objects argsort img_size s) in
  length s' = length s ∧
  (p < box_offset → s' !!! p = s !!! p) ∧
  (box_offset ≤ p < length s →
   s' !!! p = resolved img_size grid_size num_boxes (p - box_offset) (s !!! p)).
Proof.
  intros Hlen s'. unfold s'. rewrite get_candidate_objects_buffer.
  destruct (parse_returns num_classes num_boxes grid_size img_size s Hlen)
    as (probs & s1 & Hrun & Hlen1 & Hpre & Hgeo).
  unfold parse_yolo_output. rewrite Hrun. cbn [final_buffer].
  split; [done|]. split.
  - intros Hp. apply Hpre. exact Hp.
  - intros [Hlo Hhi].
    specialize (Hgeo (p - box_offset)). unfold read in Hgeo. cbn [base size] in Hgeo.
    fold box_offset in Hgeo.
    replace (box_offset + (p - box_offset)) with p in Hgeo by lia.
    apply Hgeo. rewrite Hlen in Hhi. unfold raw_length in Hhi. unfold box_offset in *. lia.
Qed.

Lemma buffer_geometry_overwritten_witness :
  let s' := final_buffer
              (get_candidate_objects insertion_argsort (700%Z, 700%Z) scenario_buffer) in
  length s' = length scenario_buffer ∧
  (1270 < box_offset → s' !!! 1270 = scenario_buffer !!! 1270) ∧
  (box_offset ≤ 1270 < length scenario_buffer →
   s' !!! 1270 = resolved (700%Z, 700%Z) grid_size num_boxes (1270 - box_offset)
                          (scenario_buffer !!! 1270)).
Proof.
  apply (buffer_geometry_overwritten insertion_argsort (700%Z, 700%Z) scenario_buffer 1270).
  reflexivity.
Defined.

(** ** Intersection over union *)

Lemma Qltb_lt (x y : Q) : Qltb x y = true ↔ (x < y)%Q.
Proof.
  unfold Qltb. rewrite negb_true_iff. split.
  - intros H. apply Qnot_le_lt. intros Hle. apply Qle_bool_iff in Hle. congruence.
  - intros H. destruct (Qle_bool y x) eqn:E; [|done].
    apply Qle_bool_iff in E. apply Qlt_not_le in H. done.
Qed.

Lemma Qltb_ge (x y : Q) : Qltb x y = false ↔ (y <= x)%Q.
Proof.
  unfold Qltb. rewrite negb_false_iff. apply Qle_bool_iff.
Qed.

(** Case analysis on every comparison of the goal. *)
Ltac Qltb_cases :=
  repeat match goal with
         | |- context [Qltb ?x ?y] =>
             let E := fresh "E" in
             destruct (Qltb x y) eqn:E;
             [apply Qltb_lt in E | apply Qltb_ge in E]
         end.

Lemma pymin_comm (a b : Q) : (pymin a b == pymin b a)%Q.
Proof. unfold pymin. Qltb_cases; lra. Qed.

Lemma pymax_comm (a b : Q) : (pymax a b == pymax b a)%Q.
Proof. unfold pymax. Qltb_cases; lra. Qed.

#[global] Instance pymin_proper : Proper (Qeq ==> Qeq ==> Qeq) pymin.
Proof. intros a a' Ha b b' Hb. unfold pymin. Qltb_cases; lra. Qed.

#[global] Instance pymax_proper : Proper (Qeq ==> Qeq ==> Qeq) pymax.
Proof. intros a a' Ha b b' Hb. unfold pymax. Qltb_cases; lra. Qed.

Lemma int_tb_comm (a b : box) : (int_tb a b == int_tb b a)%Q.
Proof.
  unfold int_tb.
  rewrite (pymin_comm (box_x a + _)), (pymax_comm (box_x a - _)). reflexivity.
Qed.

Lemma int_lr_comm (a b : box) : (int_lr a b == int_lr b a)%Q.
Proof.
  unfold int_lr.
  rewrite (pymin_comm (box_y a + _)), (pymax_comm (box_y a - _)). reflexivity.
Qed.

Lemma intersection_comm (a b : box) : (intersection a b == intersection b a)%Q.
Proof. unfold intersection. by rewrite int_tb_comm, int_lr_comm. Qed.

Lemma union_area_comm (a b : box) : (union_area a b == union_area b a)%Q.
Proof. unfold union_area. rewrite (intersection_comm a b). ring. Qed.

Lemma np_div_finite (n d : Q) : ¬ (d == 0)%Q → np_div n d = finite (n / d).
Proof.
  intros H. unfold np_div. destruct (Qeq_bool d 0) eqn:E; [|done].
  apply Qeq_bool_iff in E. done.
Qed.

(** C10. For all pairs of non-degenerate boxes (the divisor of [iou] is not
    zero), [iou] returns a number on both orders of the arguments, and the
    two numbers are equal. *)
Theorem iou_symmetric (a b : box) :
  ¬ (union_area a b == 0)%Q →
  ∃ q q', iou a b = finite q ∧ iou b a = finite q' ∧ (q == q')%Q.
Proof.
  intros H. unfold iou.
  rewrite (np_div_finite _ (union_area a b)) by done.
  rewrite (np_div_finite _ (union_area b a)) by (by rewrite union_area_comm).
  eexists _, _. split; [done|]. split; [done|].
  by rewrite intersection_comm, union_area_comm.
Qed.

Lemma iou_symmetric_witness :
  ∃ q q', iou (mkbox 1 1 2 2) (mkbox 2 2 2 2) = finite q ∧
          iou (mkbox 2 2 2 2) (mkbox 1 1 2 2) = finite q' ∧ (q == q')%Q.
Proof.
  apply (iou_symmetric (mkbox 1 1 2 2) (mkbox 2 2 2 2)).
  vm_compute. discriminate.
Defined.

(** ** The selection *)

Lemma get_candidate_objects_unfold argsort img_size (s : buffer) :
  get_candidate_objects argsort img_size s =
  match parse_yolo_output img_size s with
  | Ok parsed s' =>
      select (reverse (argsort (filtered_probs parsed.2)))
             (filtered_boxes parsed.1 s' parsed.2) (filtered_probs parsed.2)
             (filtered_classes parsed.2) s'
  | Raise e s' => Raise e s'
  end.
Proof.
  unfold get_candidate_objects, bind.
  destruct (parse_yolo_output img_size s) as [parsed s'|e s']; reflexivity.
Qed.

(** *** The suppression loop *)

Lemma zeroed_refl (ps : list Q) : zeroed ps ps.
Proof. split; auto. Qed.

Lemma zeroed_trans (ps1 ps2 ps3 : list Q) : zeroed ps1 ps2 → zeroed ps2 ps3 → zeroed ps1 ps3.
Proof.
  intros [Hl1 H1] [Hl2 H2]. split; [congruence|].
  intros k. destruct (H1 k) as [->| ->]; auto.
Qed.

Lemma zeroed_insert (ps : list Q) (j : nat) : zeroed (<[j := 0%Q]> ps) ps.
Proof.
  split; [apply length_insert|]. intros k.
  destruct (decide (j = k)) as [->|Hne].
  - destruct (decide (k < length ps)).
    + right. by apply list_lookup_total_insert_eq.
    + left. rewrite list_insert_ge by lia. done.
  - left. by apply list_lookup_total_insert_ne.
Qed.

Lemma zeroed_zero (new old : list Q) (k : nat) :
  zeroed new old → old !!! k = 0%Q → new !!! k = 0%Q.
Proof. intros [_ H] Hk. destruct (H k) as [->|]; done. Qed.

Lemma foldl_zeroed {B} (f : list Q → B → list Q) (l : list B) (ps : list Q) :
  (∀ a x, zeroed (f a x) a) → zeroed (foldl f ps l) ps.
Proof.
  intros Hf. revert ps. induction l as [|x l IH]; intros ps; simpl.
  - apply zeroed_refl.
  - eapply zeroed_trans; [apply IH | apply Hf].
Qed.

Lemma foldl_untouched {B} (f : list Q → B → list Q) (P : B → Prop) (k : nat)
    (l : list B) (ps : list Q) :
  (∀ a x, P x → f a x !!! k = a !!! k) → Forall P l → foldl f ps l !!! k = ps !!! k.
Proof.
  intros Hf Hl. revert ps. induction Hl as [|x l Hx Hl IH]; intros ps; simpl; [done|].
  rewrite IH. by apply Hf.
Qed.

Lemma suppress_from_zeroed bs i (ps : list Q) : zeroed (suppress_from bs i ps) ps.
Proof.
  unfold suppress_from. apply foldl_zeroed. intros a j.
  destruct (np_gt _ _); [apply zeroed_insert | apply zeroed_refl].
Qed.

Lemma suppress_zeroed bs (ps : list Q) : zeroed (suppress bs ps) ps.
Proof.
  unfold suppress. apply foldl_zeroed. intros a i.
  destruct (Qeq_bool _ _); [apply zeroed_refl | apply suppress_from_zeroed].
Qed.

(** The inner loop for [i] writes above [i] only. *)
Lemma suppress_from_below bs i (ps : list Q) (k : nat) :
  k ≤ i → suppress_from bs i ps !!! k = ps !!! k.
Proof.
  intros Hk. unfold suppress_from.
  apply (foldl_untouched _ (fun j => i < j)).
  - intros a j Hj. destruct (np_gt _ _); [|done].
    apply list_lookup_total_insert_ne. lia.
  - apply Forall_seq. intros j Hj. lia.
Qed.

(** The inner loop for [i] zeroes every later [j] whose box overlaps. *)
Lemma suppress_from_zeroes bs i (ps : list Q) (j : nat) :
  i < j < length bs → j < length ps →
  np_gt (iou (bs !!! i) (bs !!! j)) iou_threshold = true →
  suppress_from bs i ps !!! j = 0%Q.
Proof.
  intros Hj Hlen Hgt. unfold suppress_from.
  assert (Hin : j ∈ seq (i + 1) (length bs - (i + 1))) by (apply elem_of_seq; lia).
  revert ps Hlen. induction (seq (i + 1) (length bs - (i + 1))) as [|x l IH];
    intros ps Hlen; [by apply elem_of_nil in Hin|].
  cbn [foldl]. apply elem_of_cons in Hin as [<-|Hin].
  - rewrite Hgt. eapply zeroed_zero.
    + apply foldl_zeroed. intros a y. cbv beta.
      destruct (np_gt (iou (bs !!! i) (bs !!! y)) iou_threshold);
        [apply zeroed_insert | apply zeroed_refl].
    + by apply list_lookup_total_insert_eq.
  - apply IH; [done|]. cbv beta.
    destruct (np_gt (iou (bs !!! i) (bs !!! x)) iou_threshold); [|done].
    by rewrite length_insert.
Qed.

(** After the suppression, an entry that is not zero has zeroed every later
    entry whose box overlaps its own by more than the threshold. *)
Lemma suppress_later bs (ps : list Q) (i j : nat) :
  length ps = length bs → i < j < length bs →
  Qeq_bool (suppress bs ps !!! i) 0 = false →
  np_gt (iou (bs !!! i) (bs !!! j)) iou_threshold = true →
  suppress bs ps !!! j = 0%Q.
Proof.
  intros Hlen Hij Hi Hgt.
  assert (Hseq : seq 0 (length bs) = seq 0 i ++ i :: seq (S i) (length bs - S i)).
  { replace (length bs) with (i + S (length bs - S i)) at 1 by lia.
    by rewrite seq_app. }
  unfold suppress in *. rewrite Hseq, foldl_app in *. cbn [foldl] in *.
  set (step := fun (probs_filtered : list Q) (i : nat) =>
                 if Qeq_bool (probs_filtered !!! i) 0 then probs_filtered
                 else suppress_from bs i probs_filtered) in *.
  set (ps_a := foldl step ps (seq 0 i)) in *.
  assert (Hstep : ∀ a x k, k ≤ x → step a x !!! k = a !!! k).
  { intros a x k Hk. unfold step. destruct (Qeq_bool (a !!! x) 0); [done|].
    by apply suppress_from_below. }
  rewrite (foldl_untouched step (fun x => i ≤ x)) in Hi.
  2:{ intros a x Hx. by apply Hstep. }
  2:{ apply Forall_seq. intros x Hx. lia. }
  pose proof (Hstep ps_a i i (Nat.le_refl i)) as Hb. unfold step at 1 in Hb.
  rewrite Hb in Hi.
  assert (Hlen_a : length ps_a = length ps).
  { apply (foldl_zeroed step). intros a x. unfold step.
    destruct (Qeq_bool (a !!! x) 0); [apply zeroed_refl | apply suppress_from_zeroed]. }
  eapply zeroed_zero.
  - apply (foldl_zeroed step). intros a x. unfold step.
    destruct (Qeq_bool (a !!! x) 0); [apply zeroed_refl | apply suppress_from_zeroed].
  - rewrite Hi. apply suppress_from_zeroes; [done|lia|done].
Qed.

(** *** Boolean masks and index arrays *)

Lemma compress_sublist {A} (mask : list bool) (l : list A) : compress mask l `sublist_of` l.
Proof.
  revert l. induction mask as [|b mask IH]; intros [|x l]; simpl;
    try apply sublist_nil_l.
  destruct b; by constructor.
Qed.

Lemma compress_zip {A B} (mask : list bool) (a : list A) (b : list B) :
  compress mask (zip a b) = zip (compress mask a) (compress mask b).
Proof.
  revert a b. induction mask as [|m mask IH]; intros [|x a] [|y b]; simpl; try done.
  - destruct m; simpl; by destruct (compress mask a).
  - destruct m; simpl; by rewrite IH.
Qed.

Lemma compress_length_nonzero {A} (mask : list bool) (l : list A) (n : nat) :
  length mask = length l → length (compress mask l) = length (nonzero_from n mask).
Proof.
  revert l n. induction mask as [|b mask IH]; intros [|x l] n Hlen; simpl in *; try done.
  destruct b; simpl; rewrite (IH l (S n)) by lia; done.
Qed.

(** Entries that are still positive after the suppression are unchanged. *)
Lemma compress_zeroed (new old : list Q) :
  zeroed new old → compress (Qltb 0 <$> new) new = compress (Qltb 0 <$> new) old.
Proof.
  intros [Hlen H].
  assert (HF : Forall2 (fun x y => x = y ∨ x = 0%Q) new old).
  { apply Forall2_same_length_lookup_2; [done|]. intros i x y Hx Hy.
    apply list_lookup_total_correct in Hx, Hy. subst. apply H. }
  clear Hlen H. induction HF as [|x y new old [->| ->] _ IH]; [done| |]; csimpl.
  - destruct (Qltb 0 y); by rewrite IH.
  - exact IH.
Qed.

Lemma fancy_returns {A} `{!Inhabited A} (a : list A) (idx : list nat) (s : buffer) :
  Forall (fun i => i < length a) idx → fancy a idx s = Ok ((a !!!.) <$> idx) s.
Proof.
  intros H. unfold fancy.
  replace (mapM (fun i => a !! i) idx) with (Some ((a !!!.) <$> idx)); [done|].
  symmetry. apply mapM_Some. induction H as [|i idx Hi H IH]; csimpl; constructor; [|done].
  by apply list_lookup_lookup_total_lt.
Qed.

Lemma lookup_total_fmap_seq {A} `{!Inhabited A} (l : list A) :
  (l !!!.) <$> seq 0 (length l) = l.
Proof.
  apply list_eq. intros i. rewrite list_lookup_fmap.
  destruct (decide (i < length l)) as [Hi|Hi].
  - rewrite lookup_seq_lt by done. simpl. by rewrite list_lookup_lookup_total_lt.
  - rewrite lookup_seq_ge, lookup_ge_None_2 by lia. done.
Qed.

(** *** Sorted lists *)

Lemma StronglySorted_reverse {A} (R : relation A) (l : list A) :
  StronglySorted R l → StronglySorted (flip R) (reverse l).
Proof.
  induction 1 as [|x l Hl IH Hx]; [constructor|].
  rewrite reverse_cons. apply StronglySorted_app_2; [|done|repeat constructor].
  intros x1 x2 H1 H2. apply list_elem_of_singleton in H2 as ->.
  unfold flip. rewrite Forall_forall in Hx. apply Hx. by apply elem_of_reverse.
Qed.

Lemma StronglySorted_sublist {A} (R : relation A) (l1 l2 : list A) :
  l1 `sublist_of` l2 → StronglySorted R l2 → StronglySorted R l1.
Proof.
  induction 1 as [|x l1 l2 Hsub IH|x l1 l2 Hsub IH]; intros Hs; [done| |].
  - apply StronglySorted_inv in Hs as [Hs Hx]. constructor; [by apply IH|].
    rewrite Forall_forall in *. intros y Hy. apply Hx.
    by apply (sublist_subseteq _ _ Hsub).
  - apply StronglySorted_inv in Hs as [Hs _]. by apply IH.
Qed.

(** *** The result rows *)

Lemma as_detection_in_range (c : nat * box * Q) :
  c.1.1 < length classes → as_detection c = Some (detection_of c).
Proof.
  intros H. unfold as_detection, detection_of.
  rewrite (list_lookup_lookup_total_lt classes) by done. done.
Qed.

Lemma make_result_returns cs bs ps (s : buffer) :
  Forall (fun c => c.1.1 < length classes) (zip (zip cs bs) ps) →
  make_result cs bs ps s = Ok (detection_of <$> zip (zip cs bs) ps) s.
Proof.
  intros H. unfold make_result.
  replace (mapM as_detection (zip (zip cs bs) ps))
    with (Some (detection_of <$> zip (zip cs bs) ps)); [done|].
  symmetry. apply mapM_Some.
  induction H as [|c l Hc H IH]; csimpl; constructor; [|done].
  by apply as_detection_in_range.
Qed.

Lemma first_true_lt (row : list bool) (i : nat) : first_true row = Some i → i < length row.
Proof.
  revert i. induction row as [|b row IH]; intros i; simpl; [done|].
  destruct b; [intros [= <-]; lia|].
  destruct (first_true row) as [k|]; simpl; [|done].
  intros [= <-]. specialize (IH k eq_refl). lia.
Qed.

Lemma argmax_axis3_lt (mask : list bool) (k : nat) :
  argmax_axis3 mask !!! k < length classes.
Proof.
  rewrite list_lookup_total_alt. unfold argmax_axis3. rewrite list_lookup_fmap.
  destruct (seq 0 _ !! k) as [q|]; simpl; [|lia].
  unfold argmax_bool. destruct (first_true _) as [i|] eqn:E; simpl; [|lia].
  apply first_true_lt in E. rewrite length_take in E. unfold num_classes in E. simpl. lia.
Qed.

Lemma lookup_total_zip {A B} `{!Inhabited A, !Inhabited B} (l : list A) (k : list B) i :
  i < length l → i < length k → zip l k !!! i = (l !!! i, k !!! i).
Proof.
  intros [x Hx]%lookup_lt_is_Some_2 [y Hy]%lookup_lt_is_Some_2.
  rewrite !list_lookup_total_alt, lookup_zip_with, Hx, Hy. done.
Qed.

Lemma lookup_total_fmap_nat {B} `{!Inhabited B} (f : nat → B) (idx : list nat) (k : nat) :
  k < length idx → (f <$> idx) !!! k = f (idx !!! k).
Proof. intros. by apply list_lookup_total_fmap. Qed.

Lemma lookup_total_fmap_Q {B} `{!Inhabited B} (f : Q → B) (ps : list Q) (k : nat) :
  k < length ps → (f <$> ps) !!! k = f (ps !!! k).
Proof. intros. by apply list_lookup_total_fmap. Qed.

Lemma zip3_lookup_total (cs : list nat) (bs : list box) (ps : list Q) (idx : list nat) :
  length bs = length ps → length cs = length ps →
  Forall (fun i => i < length ps) idx →
  zip (zip ((cs !!!.) <$> idx) ((bs !!!.) <$> idx)) ((ps !!!.) <$> idx)
  = (zip (zip cs bs) ps !!!.) <$> idx.
Proof.
  intros Hb Hc H. induction H as [|i idx Hi H IH]; [done|].
  rewrite !fmap_cons. cbn [zip_with]. rewrite IH. f_equal.
  rewrite !lookup_total_zip; rewrite ?length_zip_with; (done || lia).
Qed.

(** The selection on index array [idx], a reordering of the candidates. *)
Lemma select_returns idx bs ps cs (s : buffer) :
  idx ≡ₚ seq 0 (length ps) → length bs = length ps → length cs = length ps →
  Forall (fun c => c < length classes) cs →
  let sorted := (zip (zip cs bs) ps !!!.) <$> idx in
  let keep := Qltb 0 <$> suppress ((bs !!!.) <$> idx) ((ps !!!.) <$> idx) in
  select idx bs ps cs s = Ok (detection_of <$> compress keep sorted) s ∧
  sorted ≡ₚ zip (zip cs bs) ps ∧
  length keep = length sorted ∧
  Forall (fun c => c.1.1 < length classes) sorted ∧
  (∀ i j, i < j < length sorted → keep !!! i = true →
          np_gt (iou (sorted !!! i).1.2 (sorted !!! j).1.2) iou_threshold = true →
          keep !!! j = false).
Proof.
  intros Hperm Hb Hc Hcls sorted keep.
  assert (Hidx : Forall (fun i => i < length ps) idx).
  { rewrite Hperm. apply Forall_seq. intros; lia. }
  assert (Hzip : length (zip (zip cs bs) ps) = length ps).
  { rewrite !length_zip_with. lia. }
  assert (Hsorted : Forall (fun c => c.1.1 < length classes) sorted).
  { unfold sorted. rewrite Forall_fmap. eapply Forall_impl; [exact Hidx|].
    intros i Hi. unfold compose. cbv beta in *. rewrite !lookup_total_zip; rewrite ?length_zip_with; try lia.
    cbn [fst snd]. by apply Forall_lookup_total_1; [|lia]. }
  assert (Hlen : length keep = length sorted).
  { unfold keep, sorted. rewrite length_fmap. destruct (suppress_zeroed ((bs !!!.) <$> idx)
      ((ps !!!.) <$> idx)) as [-> _]. by rewrite !length_fmap. }
  split; [|split; [|split; [done|split; [done|]]]].
  - unfold select, bind.
    rewrite !fancy_returns by (by rewrite ?Hb, ?Hc).
    cbv zeta. rewrite (compress_zeroed _ _ (suppress_zeroed _ _)). fold keep.
    rewrite make_result_returns; rewrite <- !compress_zip, zip3_lookup_total by done.
    + done.
    + fold sorted. rewrite Forall_forall in *. intros c Hin. apply Hsorted.
      by apply (sublist_subseteq _ _ (compress_sublist keep sorted)).
  - unfold sorted. rewrite Hperm, <- Hzip. by rewrite lookup_total_fmap_seq.
  - intros i j Hij Hi Hgt. unfold sorted in Hij. rewrite length_fmap in Hij.
    assert (Hbox : ∀ k, k < length idx →
              (sorted !!! k).1.2 = ((bs !!!.) <$> idx) !!! k).
    { intros k Hk. unfold sorted. rewrite !lookup_total_fmap_nat by done.
      assert (idx !!! k < length ps) by (by apply Forall_lookup_total_1).
      rewrite !lookup_total_zip; rewrite ?length_zip_with; (done || lia). }
    rewrite !Hbox in Hgt by lia.
    assert (Hls : length (suppress ((bs !!!.) <$> idx) ((ps !!!.) <$> idx)) = length idx).
    { destruct (suppress_zeroed ((bs !!!.) <$> idx) ((ps !!!.) <$> idx)) as [-> _].
      by rewrite length_fmap. }
    unfold keep in *. rewrite lookup_total_fmap_Q in Hi |- * by lia.
    rewrite (suppress_later _ _ i j); [done| | | |exact Hgt].
    + by rewrite !length_fmap.
    + rewrite length_fmap. lia.
    + apply Qltb_lt in Hi. destruct (Qeq_bool _ 0) eqn:E; [|done].
      apply Qeq_bool_iff in E. rewrite E in Hi. by apply Qlt_irrefl in Hi.
Qed.

Lemma StronglySorted_fmap_inv {A B} (f : A → B) (R : relation B) (l : list A) :
  StronglySorted R (f <$> l) → StronglySorted (fun x y => R (f x) (f y)) l.
Proof.
  induction l as [|x l IH]; csimpl; intros H; [constructor|].
  apply StronglySorted_inv in H as [H Hx]. constructor; [by apply IH|].
  by rewrite Forall_fmap in Hx.
Qed.

Lemma compress_filter {A} (f : A → bool) (l : list A) :
  compress (f <$> l) l = List.filter f l.
Proof. induction l as [|x l IH]; csimpl; [done|]. destruct (f x); by rewrite IH. Qed.

(** *** The filtered arrays have one entry per candidate *)

Lemma length_filtered_probs (probs : list Q) :
  length (filtered_probs probs) = length (nonzero_from 0 (filter_mat_probs probs)).
Proof.
  unfold filtered_probs. apply compress_length_nonzero.
  unfold filter_mat_probs. by rewrite length_fmap.
Qed.

Lemma length_filtered_boxes boxes (s : buffer) (probs : list Q) :
  length (filtered_boxes boxes s probs) = length (filtered_probs probs).
Proof.
  rewrite length_filtered_probs.
  unfold filtered_boxes, filter_mat_boxes, nonzero. by rewrite !length_fmap.
Qed.

Lemma length_filtered_classes (probs : list Q) :
  length (filtered_classes probs) = length (filtered_probs probs).
Proof.
  rewrite length_filtered_probs.
  unfold filtered_classes, filter_mat_boxes, nonzero. by rewrite !length_fmap.
Qed.

Lemma length_candidates boxes (s : buffer) (probs : list Q) :
  length (candidates boxes s probs) = length (List.filter (Qle_bool threshold) probs).
Proof.
  unfold candidates. rewrite !length_zip_with.
  rewrite length_filtered_boxes, length_filtered_classes.
  unfold filtered_probs, filter_mat_probs. rewrite compress_filter.
  by rewrite !Nat.min_id.
Qed.

Lemma filtered_classes_in_range (probs : list Q) :
  Forall (fun c => c < length classes) (filtered_classes probs).
Proof.
  unfold filtered_classes. rewrite Forall_fmap. apply Forall_forall.
  intros rcb _. apply argmax_axis3_lt.
Qed.

(** *** The whole call, on a buffer of the right length *)

Lemma pipeline_returns argsort (img_size : Z * Z) (s : buffer) :
  argsort_spec argsort →
  length s = raw_length num_classes num_boxes grid_size →
  ∃ boxes probs s',
    let sorted := sorted_candidates argsort boxes s' probs in
    let keep := survivors argsort boxes s' probs in
    parse_yolo_output img_size s = Ok (boxes, probs) s' ∧
    get_candidate_objects argsort img_size s
      = Ok (detection_of <$> compress keep sorted) s' ∧
    sorted ≡ₚ candidates boxes s' probs ∧
    StronglySorted (fun c1 c2 => (c2.2 <= c1.2)%Q) sorted ∧
    length keep = length sorted ∧
    (∀ i j, i < j < length sorted → keep !!! i = true →
            np_gt (iou (sorted !!! i).1.2 (sorted !!! j).1.2) iou_threshold = true →
            keep !!! j = false).
Proof.
  intros Hspec Hlen.
  destruct (parse_returns num_classes num_boxes grid_size img_size s Hlen)
    as (probs & s' & Hrun & _).
  set (boxes := mkview _ _) in Hrun. fold parse_yolo_output in Hrun.
  destruct (Hspec (filtered_probs probs)) as [Hperm Hasc].
  set (idx := reverse (argsort (filtered_probs probs))).
  assert (Hidx : idx ≡ₚ seq 0 (length (filtered_probs probs))).
  { unfold idx. by rewrite reverse_Permutation. }
  destruct (select_returns idx (filtered_boxes boxes s' probs) (filtered_probs probs)
              (filtered_classes probs) s' Hidx
              (length_filtered_boxes boxes s' probs) (length_filtered_classes probs)
              (filtered_classes_in_range probs))
    as (Hsel & Hsorted & Hkeep & _ & Hsup).
  exists boxes, probs, s'. intros sorted keep.
  split; [exact Hrun|]. split; [|split; [exact Hsorted|split; [|split; [exact Hkeep|exact Hsup]]]].
  - rewrite get_candidate_objects_unfold, Hrun. exact Hsel.
  - apply (StronglySorted_fmap_inv snd (flip Qle)).
    unfold sorted, sorted_candidates, candidates. fold idx.
    rewrite <- list_fmap_compose.
    assert (Hin : Forall (fun i => i < length (filtered_probs probs)) idx).
    { rewrite Hidx. apply Forall_seq. intros; lia. }
    rewrite (Forall_fmap_ext_1 _ (filtered_probs probs !!!.)).
    + unfold idx. rewrite fmap_reverse. by apply StronglySorted_reverse.
    + eapply Forall_impl; [exact Hin|]. intros i Hi. unfold compose. cbv beta in *.
      rewrite lookup_total_zip; [done| |done].
      rewrite length_zip_with, length_filtered_boxes, length_filtered_classes. lia.
Qed.

(** ** Insertion sort is an [argsort] *)

Lemma insert_index_perm (a : list Q) (i : nat) (l : list nat) :
  insert_index a i l ≡ₚ i :: l.
Proof.
  induction l as [|j l IH]; simpl; [done|].
  destruct (Qltb _ _); [done|]. rewrite IH. apply Permutation_swap.
Qed.

Lemma insert_index_sorted (a : list Q) (i : nat) (l : list nat) :
  StronglySorted (key_index_lt a) l → Forall (fun j => j < i) l →
  StronglySorted (key_index_lt a) (insert_index a i l).
Proof.
  induction 1 as [|j l Hl IH Hj]; intros Hlt; simpl.
  - repeat constructor.
  - apply Forall_cons in Hlt as [Hji Hlt].
    destruct (Qltb (a !!! i) (a !!! j)) eqn:E.
    + apply Qltb_lt in E. constructor; [by constructor|].
      constructor; [by left|].
      eapply Forall_impl; [exact Hj|]. intros x [Hx|[Hx _]]; left; lra.
    + apply Qltb_ge in E. constructor; [by apply IH|].
      rewrite insert_index_perm. constructor; [|done].
      destruct (Qle_lt_or_eq _ _ E) as [H|H]; [by left|by right].
Qed.

Lemma insertion_argsort_sorted (a : list Q) (n : nat) :
  let l := foldl (fun sorted i => insert_index a i sorted) [] (seq 0 n) in
  l ≡ₚ seq 0 n ∧ StronglySorted (key_index_lt a) l.
Proof.
  induction n as [|n [Hperm Hsorted]]; [split; [done|constructor]|].
  cbn zeta in *. rewrite seq_S, foldl_app. cbn [foldl Nat.add].
  split.
  - rewrite insert_index_perm, Hperm. apply Permutation_cons_append.
  - apply insert_index_sorted; [done|]. rewrite Hperm. apply Forall_seq. intros; lia.
Qed.

Lemma insertion_argsort_spec : argsort_spec insertion_argsort.
Proof.
  intros a. destruct (insertion_argsort_sorted a (length a)) as [Hperm Hsorted].
  split; [exact Hperm|].
  apply (StronglySorted_fmap _ (key_index_lt a)); [|exact Hsorted].
  intros i j [H|[H _]]; lra.
Qed.

Lemma StronglySorted_lookup {A} (R : relation A) (l : list A) (i j : nat) (x y : A) :
  StronglySorted R l → i < j → l !! i = Some x → l !! j = Some y → R x y.
Proof.
  intros Hs. revert i j. induction Hs as [|a l Hl IH Ha]; intros i j Hij Hx Hy; [done|].
  destruct j as [|j]; [lia|]. destruct i as [|i]; simpl in *.
  - injection Hx as <-. rewrite Forall_forall in Ha. apply Ha.
    by apply list_elem_of_lookup_2 in Hy.
  - apply (IH i j); (done || lia).
Qed.

(** With the insertion sort as [argsort], candidates of equal score come out
    of [np.argsort(probs_filtered)[::-1]] in the reverse of the order of
    enumeration. *)
Lemma insertion_argsort_reverses_ties (a : list Q) (i j : nat) :
  let idx := reverse (insertion_argsort a) in
  i < j < length a → (a !!! (idx !!! i) == a !!! (idx !!! j))%Q → idx !!! j < idx !!! i.
Proof.
  intros idx Hij Heq.
  destruct (insertion_argsort_sorted a (length a)) as [Hperm Hsorted].
  fold (insertion_argsort a) in Hperm, Hsorted.
  apply StronglySorted_reverse in Hsorted. fold idx in Hsorted.
  assert (Hlen : length idx = length a).
  { unfold idx. by rewrite length_reverse, Hperm, length_seq. }
  destruct (StronglySorted_lookup _ idx i j (idx !!! i) (idx !!! j) Hsorted)
    as [H|[_ H]]; try done; try lia.
  - apply list_lookup_lookup_total_lt. lia.
  - apply list_lookup_lookup_total_lt. lia.
  - exfalso. rewrite Heq in H. by apply Qlt_irrefl in H.
Qed.

Lemma get_candidate_objects_ok_length argsort (img_size : Z * Z) (s : buffer) result s' :
  get_candidate_objects argsort img_size s = Ok result s' →
  length s = raw_length num_classes num_boxes grid_size.
Proof.
  intros H. destruct (decide (length s = raw_length num_classes num_boxes grid_size))
    as [|Hne]; [done|].
  rewrite get_candidate_objects_unfold in H. unfold parse_yolo_output in H.
  rewrite parse_raises in H by done. discriminate.
Qed.

(** ** Two candidates of equal score *)

(** C4, the claim as stated fails: with the stable insertion sort as
    [argsort], the two candidates of [tie_buffer] have the same score and
    an IoU above the threshold, and the one enumerated later (box 1)
    survives while the one enumerated earlier (box 0) is suppressed. *)
Lemma tie_order_counterexample :
  argsort_spec insertion_argsort ∧
  match parse_yolo_output (700%Z, 700%Z) tie_buffer with
  | Ok parsed s' =>
      candidates parsed.1 s' parsed.2 = [(0, tie_box_0, 1%Q); (0, tie_box_1, 1%Q)] ∧
      np_gt (iou tie_box_0 tie_box_1) iou_threshold = true ∧
      get_candidate_objects insertion_argsort (700%Z, 700%Z) tie_buffer
        = Ok [detection_of (0, tie_box_1, 1%Q)] s'
  | Raise _ _ => False
  end.
Proof.
  split; [apply insertion_argsort_spec|].
  vm_compute. repeat split; reflexivity.
Qed.

(** C4, amended. The candidates are put in an order of descending score:
    the reverse of the ascending order that [argsort] returns, which is not
    the order of enumeration where scores are equal. Suppression follows
    that order: of two candidates whose IoU exceeds the threshold (equal
    scores or not), the one placed later does not survive when the one
    placed earlier survives; the detections returned are the survivors, in
    that order. *)
Theorem suppression_follows_sorted_order argsort (img_size : Z * Z) (s : buffer) :
  argsort_spec argsort →
  length s = raw_length num_classes num_boxes grid_size →
  ∃ boxes probs s',
    let sorted := sorted_candidates argsort boxes s' probs in
    let keep := survivors argsort boxes s' probs in
    parse_yolo_output img_size s = Ok (boxes, probs) s' ∧
    sorted ≡ₚ candidates boxes s' probs ∧
    StronglySorted (fun c1 c2 => (c2.2 <= c1.2)%Q) sorted ∧
    length keep = length sorted ∧
    get_candidate_objects argsort img_size s
      = Ok (detection_of <$> compress keep sorted) s' ∧
    (∀ i j, i < j < length sorted → keep !!! i = true →
            np_gt (iou (sorted !!! i).1.2 (sorted !!! j).1.2) iou_threshold = true →
            keep !!! j = false).
Proof.
  intros Hspec Hlen.
  destruct (pipeline_returns argsort img_size s Hspec Hlen)
    as (boxes & probs & s' & H1 & H2 & H3 & H4 & H5 & H6).
  by exists boxes, probs, s'.
Qed.

Lemma suppression_follows_sorted_order_witness :
  ∃ boxes probs s',
    let sorted := sorted_candidates insertion_argsort boxes s' probs in
    let keep := survivors insertion_argsort boxes s' probs in
    parse_yolo_output (700%Z, 700%Z) tie_buffer = Ok (boxes, probs) s' ∧
    sorted ≡ₚ candidates boxes s' probs ∧
    StronglySorted (fun c1 c2 => (c2.2 <= c1.2)%Q) sorted ∧
    length keep = length sorted ∧
    get_candidate_objects insertion_argsort (700%Z, 700%Z) tie_buffer
      = Ok (detection_of <$> compress keep sorted) s' ∧
    (∀ i j, i < j < length sorted → keep !!! i = true →
            np_gt (iou (sorted !!! i).1.2 (sorted !!! j).1.2) iou_threshold = true →
            keep !!! j = false).
Proof.
  apply (suppression_follows_sorted_order insertion_argsort (700%Z, 700%Z) tie_buffer).
  - exact insertion_argsort_spec.
  - reflexivity.
Defined.

(** ** Suppression removes, and keeps the order *)

(** C8. On every input on which the call returns (every buffer of the right
    length), the detections returned are at most as many as the scores
    that passed the threshold, and each is the row of one of the filtered
    candidates, with that candidate's box and score: suppression removes
    entries and alters none. *)
Theorem suppression_only_removes argsort (img_size : Z * Z) (s : buffer) :
  argsort_spec argsort →
  (length s = raw_length num_classes num_boxes grid_size →
   ∃ result s', get_candidate_objects argsort img_size s = Ok result s') ∧
  (∀ result s',
     get_candidate_objects argsort img_size s = Ok result s' →
     ∃ boxes probs kept,
       parse_yolo_output img_size s = Ok (boxes, probs) s' ∧
       length result ≤ length (List.filter (Qle_bool threshold) probs) ∧
       kept ⊆+ candidates boxes s' probs ∧
       result = detection_of <$> kept).
Proof.
  intros Hspec. split.
  - intros Hlen.
    destruct (pipeline_returns argsort img_size s Hspec Hlen)
      as (boxes & probs & s' & _ & H2 & _). eauto.
  - intros result s' Hrun.
    pose proof (get_candidate_objects_ok_length _ _ _ _ _ Hrun) as Hlen.
    destruct (pipeline_returns argsort img_size s Hspec Hlen)
      as (boxes & probs & s1 & H1 & H2 & H3 & _).
    rewrite H2 in Hrun. injection Hrun as <- <-.
    set (sorted := sorted_candidates argsort boxes s1 probs) in *.
    set (keep := survivors argsort boxes s1 probs) in *.
    assert (Hsub : compress keep sorted ⊆+ candidates boxes s1 probs).
    { rewrite <- H3. apply sublist_submseteq, compress_sublist. }
    exists boxes, probs, (compress keep sorted).
    split; [done|]. split; [|done].
    rewrite length_fmap, <- (length_candidates boxes s1 probs).
    by apply submseteq_length.
Qed.

Lemma suppression_only_removes_witness :
  (length tie_buffer = raw_length num_classes num_boxes grid_size →
   ∃ result s',
     get_candidate_objects insertion_argsort (700%Z, 700%Z) tie_buffer = Ok result s') ∧
  (∀ result s',
     get_candidate_objects insertion_argsort (700%Z, 700%Z) tie_buffer = Ok result s' →
     ∃ boxes probs kept,
       parse_yolo_output (700%Z, 700%Z) tie_buffer = Ok (boxes, probs) s' ∧
       length result ≤ length (List.filter (Qle_bool threshold) probs) ∧
       kept ⊆+ candidates boxes s' probs ∧
       result = detection_of <$> kept).
Proof.
  apply (suppression_only_removes insertion_argsort (700%Z, 700%Z) tie_buffer).
  exact insertion_argsort_spec.
Defined.

(** C9. On every input on which the call returns (every buffer of the right
    length), the returned sequence is sorted by score, non-increasing. *)
Theorem result_sorted_by_score argsort (img_size : Z * Z) (s : buffer) :
  argsort_spec argsort →
  (length s = raw_length num_classes num_boxes grid_size →
   ∃ result s', get_candidate_objects argsort img_size s = Ok result s') ∧
  (∀ result s',
     get_candidate_objects argsort img_size s = Ok result s' →
     StronglySorted (fun d1 d2 => (det_score d2 <= det_score d1)%Q) result).
Proof.
  intros Hspec. split.
  - intros Hlen.
    destruct (pipeline_returns argsort img_size s Hspec Hlen)
      as (boxes & probs & s' & _ & H2 & _). eauto.
  - intros result s' Hrun.
    pose proof (get_candidate_objects_ok_length _ _ _ _ _ Hrun) as Hlen.
    destruct (pipeline_returns argsort img_size s Hspec Hlen)
      as (boxes & probs & s1 & _ & H2 & _ & H4 & _).
    rewrite H2 in Hrun. injection Hrun as <- <-.
    apply (StronglySorted_fmap _ (fun c1 c2 => (c2.2 <= c1.2)%Q)); [done|].
    apply (StronglySorted_sublist _ _ (sorted_candidates argsort boxes s1 probs));
      [apply compress_sublist|done].
Qed.

Lemma result_sorted_by_score_witness :
  (length tie_buffer = raw_length num_classes num_boxes grid_size →
   ∃ result s',
     get_candidate_objects insertion_argsort (700%Z, 700%Z) tie_buffer = Ok result s') ∧
  (∀ result s',
     get_candidate_objects insertion_argsort (700%Z, 700%Z) tie_buffer = Ok result s' →
     StronglySorted (fun d1 d2 => (det_score d2 <= det_score d1)%Q) result).
Proof.
  apply (result_sorted_by_score insertion_argsort (700%Z, 700%Z) tie_buffer).
  exact insertion_argsort_spec.
Defined.

(** ** What [argsort] returns on two distinct values *)

Lemma argsort_ascending_pair argsort (x y : Q) :
  argsort_spec argsort → (x < y)%Q → argsort [x; y] = [0; 1].
Proof.
  intros Hspec Hlt. destruct (Hspec [x; y]) as [Hperm Hsorted]. simpl in Hperm.
  symmetry in Hperm. apply Permutation_length_2_inv in Hperm as [E|E]; [done|].
  exfalso. rewrite E in Hsorted. cbn in Hsorted. apply StronglySorted_inv in Hsorted as [_ H].
  apply Forall_cons in H as [H _]. apply Qle_not_lt in H. done.
Qed.

(** ** Two classes of one box above the threshold *)

Lemma two_class_stages :
  match parse_yolo_output (700%Z, 700%Z) two_class_buffer with
  | Ok parsed s' =>
      nonzero (filter_mat_probs parsed.2) = [(0, 0, 0, 0); (0, 0, 0, 1)] ∧
      filtered_probs parsed.2 = [1#2; 1%Q] ∧
      filtered_classes parsed.2 = [0; 0] ∧
      select [1; 0] (filtered_boxes parsed.1 s' parsed.2) (filtered_probs parsed.2)
             (filtered_classes parsed.2) s'
      = Ok [mkdetection "aeroplane" (((1#2) + 0) / 7 * 700) (((1#2) + 0) / 7 * 700)
                        ((1#2) * (1#2) * 700) ((1#2) * (1#2) * 700) 1] s'
  | Raise _ _ => False
  end.
Proof. vm_compute. repeat split; reflexivity. Qed.

(** C3, the behaviour of the code where the claim fails. In
    [two_class_buffer] the scores of classes 0 and 1 of box (0, 0, 0) both
    pass the threshold. Both candidates get class id 0, the first passing
    class of the box, and the detection returned, whose score 1.0 is the
    score of class 1, is labelled [classes[0]]. *)
Theorem class_id_is_first_passing_class argsort :
  argsort_spec argsort →
  ∃ boxes probs s' d,
    parse_yolo_output (700%Z, 700%Z) two_class_buffer = Ok (boxes, probs) s' ∧
    nonzero (filter_mat_probs probs) = [(0, 0, 0, 0); (0, 0, 0, 1)] ∧
    filtered_probs probs = [1#2; 1%Q] ∧
    filtered_classes probs = [0; 0] ∧
    get_candidate_objects argsort (700%Z, 700%Z) two_class_buffer = Ok [d] s' ∧
    det_score d = 1%Q ∧
    classes !! 0 = Some (det_label d) ∧ classes !! 1 ≠ Some (det_label d).
Proof.
  intros Hspec. rewrite get_candidate_objects_unfold.
  pose proof two_class_stages as H.
  destruct (parse_yolo_output (700%Z, 700%Z) two_class_buffer)
    as [[boxes probs] s'|]; [|done].
  cbn [fst snd] in *. destruct H as (Hnz & Hprobs & Hcls & Hsel).
  replace (argsort (filtered_probs probs)) with [0; 1]
    by (rewrite Hprobs; symmetry; by apply argsort_ascending_pair).
  change (reverse [0; 1]) with [1; 0]. rewrite Hsel.
  eexists boxes, probs, s', _. repeat split; try done.
Qed.

Lemma class_id_is_first_passing_class_witness :
  ∃ boxes probs s' d,
    parse_yolo_output (700%Z, 700%Z) two_class_buffer = Ok (boxes, probs) s' ∧
    nonzero (filter_mat_probs probs) = [(0, 0, 0, 0); (0, 0, 0, 1)] ∧
    filtered_probs probs = [1#2; 1%Q] ∧
    filtered_classes probs = [0; 0] ∧
    get_candidate_objects insertion_argsort (700%Z, 700%Z) two_class_buffer = Ok [d] s' ∧
    det_score d = 1%Q ∧
    classes !! 0 = Some (det_label d) ∧ classes !! 1 ≠ Some (det_label d).
Proof.
  apply (class_id_is_first_passing_class insertion_argsort).
  exact insertion_argsort_spec.
Defined.

(** * Properties of the binary64 embedding *)

Section binary64.
Import FloatClass PrimFloat FloatOps SpecFloat FloatAxioms.

(** ** The concrete scenario *)








(** ** [iou] with a zero divisor *)








(** Rounding makes the divisor zero for a box of positive width and height:
    [rounding_box] against itself has intersection 2^-43, twice its area
    2^-44, and its IoU is +inf, which passes the test of the suppression. *)
Lemma iou_rounding_box :
  Binary64.intersection Binary64.rounding_box Binary64.rounding_box = 0x1p-43%float ∧
  Binary64.iou Binary64.rounding_box Binary64.rounding_box = infinity ∧
  (Binary64.iou_threshold
   <? Binary64.iou Binary64.rounding_box Binary64.rounding_box)%float = true.
Proof. repeat split; reflexivity. Qed.

End binary64.

(** * Further properties *)

(** ** [iou] on boxes apart *)





(** ** [get_boxes] on any view and any grid *)

Lemma update_view_not_in_view v f (s : buffer) (p : nat) :
  in_view v p = false → update_view v f s !!! p = s !!! p.
Proof.
  intros Hp. destruct (decide (p < length s)) as [Hlen|Hlen].
  - rewrite update_view_lookup by done. by rewrite Hp.
  - rewrite !list_lookup_total_alt, !lookup_ge_None_2;
      rewrite ?length_update_view; (done || lia).
Qed.

(** [get_boxes] writes inside its view only: whether it returns or raises,
    the buffer keeps its length and every element outside the view. *)
Theorem get_boxes_frame (v : view) (img_size : Z * Z) (g nb : nat) (s : buffer) (p : nat) :
  in_view v p = false →
  length (final_buffer (get_boxes v img_size g nb s)) = length s ∧
  final_buffer (get_boxes v img_size g nb s) !!! p = s !!! p.
Proof.
  intros Hp. unfold get_boxes, bind, reshape.
  destruct (size v =? _); cbn [ret raise modify final_buffer]; [|done].
  split.
  - by rewrite !length_update_view.
  - by rewrite !update_view_not_in_view.
Qed.

Lemma get_boxes_frame_witness :
  length (final_buffer (get_boxes (mkview 2 4) (10%Z, 20%Z) 1 1 [1; 2; 3; 4; 5; 6; 7]%Q)) = 7 ∧
  final_buffer (get_boxes (mkview 2 4) (10%Z, 20%Z) 1 1 [1; 2; 3; 4; 5; 6; 7]%Q) !!! 6
  = [1; 2; 3; 4; 5; 6; 7]%Q !!! 6.
Proof.
  apply (get_boxes_frame (mkview 2 4) (10%Z, 20%Z) 1 1 [1; 2; 3; 4; 5; 6; 7]%Q 6).
  reflexivity.
Defined.

Lemma unravel_any_grid (g nb row col b c : nat) :
  row < g → col < g → b < nb → c < 4 →
  let q := ((row * g + col) * nb + b) * 4 + c in
  ix_row g nb q = row ∧ ix_col g nb q = col ∧ ix_box nb q = b ∧ ix_comp q = c ∧
  q < g * g * nb * 4.
Proof.
  intros Hrow Hcol Hb Hc q. unfold ix_row, ix_col, ix_box, ix_comp.
  assert (H4 : q / 4 = (row * g + col) * nb + b).
  { symmetry. apply (Nat.div_unique _ 4 _ c); unfold q; nia. }
  assert (Hn : q / (nb * 4) = row * g + col).
  { symmetry. apply (Nat.div_unique _ (nb * 4) _ (b * 4 + c)); unfold q; nia. }
  assert (Hg : q / (g * nb * 4) = row).
  { symmetry. apply (Nat.div_unique _ (g * nb * 4) _ ((col * nb + b) * 4 + c));
      unfold q; nia. }
  rewrite H4, Hn, Hg. repeat split.
  - symmetry. apply (Nat.mod_unique _ g row); lia.
  - symmetry. apply (Nat.mod_unique _ nb (row * g + col)); lia.
  - symmetry. apply (Nat.mod_unique _ 4 ((row * g + col) * nb + b)); unfold q; nia.
  - assert (H1 : row * g + col < g * g) by nia.
    assert (H2 : (row * g + col) * nb + b < g * g * nb) by nia.
    unfold q. lia.
Qed.

(** For every grid size [g] and number of boxes [nb], on a view of
    [g * g * nb * 4] elements [get_boxes] returns, and the box at
    [(row, col, b)] is ((rx + col) / 7 * w_img, (ry + row) / 7 * h_img,
    rw^2 * w_img, rh^2 * h_img): the divisor is the constant 7, not [g]. *)
Theorem get_boxes_any_grid (v : view) (img_size : Z * Z) (g nb : nat) (s : buffer)
    (row col b : nat) :
  size v = g * g * nb * 4 → base v + size v ≤ length s →
  row < g → col < g → b < nb →
  let q := ((row * g + col) * nb + b) * 4 in
  let w_img := inject_Z (snd img_size) in
  let h_img := inject_Z (fst img_size) in
  ∃ s',
    get_boxes v img_size g nb s = Ok v s' ∧
    read v s' q = ((read v s q + inject_Z (Z.of_nat col)) / 7 * w_img)%Q ∧
    read v s' (q + 1) = ((read v s (q + 1) + inject_Z (Z.of_nat row)) / 7 * h_img)%Q ∧
    read v s' (q + 2) = (read v s (q + 2) ^ 2 * w_img)%Q ∧
    read v s' (q + 3) = (read v s (q + 3) ^ 2 * h_img)%Q.
Proof.
  intros Hsz Hlen Hrow Hcol Hb q w_img h_img.
  destruct (get_boxes_returns v img_size g nb s Hsz) as (s' & Hrun & _ & _ & Hgeo).
  exists s'. split; [exact Hrun|].
  assert (Hc : ∀ c, c < 4 →
            read v s' (q + c) = resolved img_size g nb (q + c) (read v s (q + c))).
  { intros c Hc. destruct (unravel_any_grid g nb row col b c) as (_ & _ & _ & _ & Hq);
      try done. fold q in Hq. apply Hgeo; lia. }
  destruct (unravel_any_grid g nb row col b 0) as (_ & E0 & _ & K0 & _); try done; [lia|].
  destruct (unravel_any_grid g nb row col b 1) as (E1 & _ & _ & K1 & _); try done; [lia|].
  destruct (unravel_any_grid g nb row col b 2) as (_ & _ & _ & K2 & _); try done; [lia|].
  destruct (unravel_any_grid g nb row col b 3) as (_ & _ & _ & K3 & _); try done; [lia|].
  fold q in E0, K0, E1, K1, K2, K3.
  pose proof (Hc 0) as H0. rewrite Nat.add_0_r in H0, E0, K0.
  rewrite H0, !Hc by lia. unfold resolved.
  rewrite E0, K0, E1, K1, K2, K3. done.
Qed.

Lemma get_boxes_any_grid_witness :
  let v := mkview 0 16 in
  let s := [1#2; 1#2; 1#2; 1#2; 0; 0; 0; 0; 0; 0; 0; 0; 1#4; 1#4; 1#2; 1#2]%Q in
  ∃ s',
    get_boxes v (100%Z, 200%Z) 2 1 s = Ok v s' ∧
    read v s' 12 = ((read v s 12 + inject_Z (Z.of_nat 1)) / 7 * 200)%Q ∧
    read v s' (12 + 1) = ((read v s (12 + 1) + inject_Z (Z.of_nat 1)) / 7 * 100)%Q ∧
    read v s' (12 + 2) = (read v s (12 + 2) ^ 2 * 200)%Q ∧
    read v s' (12 + 3) = (read v s (12 + 3) ^ 2 * 100)%Q.
Proof.
  apply (get_boxes_any_grid (mkview 0 16) (100%Z, 200%Z) 2 1
           [1#2; 1#2; 1#2; 1#2; 0; 0; 0; 0; 0; 0; 0; 0; 1#4; 1#4; 1#2; 1#2]%Q 1 1 0);
    simpl; lia.
Defined.

(** ** The scores of [parse_yolo_output] *)

(** A loop of statements that each overwrite, with a value that depends on
    the position only, the positions [hit] selects. *)
Lemma foldl_overwrite {X} (step : list Q → X → list Q) (hit : X → nat → bool)
    (val : nat → Q) (xs : list X) (l : list Q) (p : nat) :
  (∀ l x, length (step l x) = length l) →
  (∀ l x p, p < length l → step l x !!! p = if hit x p then val p else l !!! p) →
  p < length l →
  length (foldl step l xs) = length l ∧
  foldl step l xs !!! p = if existsb (fun x => hit x p) xs then val p else l !!! p.
Proof.
  intros Hlen Hstep. revert l. induction xs as [|x xs IH]; intros l Hp; [done|].
  cbn [foldl existsb]. destruct (IH (step l x)) as [IH1 IH2]; [by rewrite Hlen|].
  split; [by rewrite IH1, Hlen|]. rewrite IH2, Hstep by done.
  destruct (hit x p); simpl; [|done]. by destruct (existsb _ xs).
Qed.

Lemma assign_probs_lookup C B (cp cf : view) (s : buffer) (i j : nat) (probs : list Q) (p : nat) :
  p < length probs →
  assign_probs C B cp cf s i j probs !!! p =
    if ((p / C) `mod` B =? i) && (p `mod` C =? j)
    then (read cp s (p / (B * C) * C + j)%nat * read cf s (p / (B * C) * B + i)%nat)%Q
    else probs !!! p.
Proof.
  intros Hp. unfold assign_probs.
  by rewrite (@list_lookup_total_imap _ _ _ Q_inhabited Q_inhabited).
Qed.

Lemma parse_returns_probs C B S img_size (s : buffer) :
  length s = raw_length C B S →
  ∃ boxes probs s',
    parse_yolo_output_with C B S img_size s = Ok (boxes, probs) s' ∧
    length probs = S * S * B * C ∧
    ∀ p, p < S * S * B * C →
         probs !!! p = (s !!! (p / (B * C) * C + p `mod` C)%nat
                        * s !!! (S * S * C + (p / (B * C) * B + (p / C) `mod` B))%nat)%Q.
Proof.
  intros Hlen. unfold raw_length in Hlen.
  assert (Hv : slice (S * S * C + S * S * B) (length s) (length s)
               = mkview (S * S * C + S * S * B) (S * S * B * 4)).
  { unfold slice. f_equal; lia. }
  destruct (get_boxes_returns (mkview (S * S * C + S * S * B) (S * S * B * 4))
              img_size S B s eq_refl) as (s' & Hrun & _).
  unfold parse_yolo_output_with, bind, get, reshape.
  rewrite !shape3_size.
  set (cp := slice 0 (S * S * C) (length s)).
  set (cf := slice (S * S * C) (S * S * C + S * S * B) (length s)).
  replace (size cp =? S * S * C) with true
    by (symmetry; apply Nat.eqb_eq; cbn [size slice cp]; lia).
  cbn [ret].
  replace (size cf =? S * S * B) with true
    by (symmetry; apply Nat.eqb_eq; cbn [size slice cf]; lia).
  cbn [ret]. rewrite Hv, Hrun. cbn [ret].
  eexists _, _, s'. split; [reflexivity|].
  set (val := fun p : nat => (read cp s (p / (B * C) * C + p `mod` C)%nat
                        * read cf s (p / (B * C) * B + (p / C) `mod` B)%nat)%Q).
  set (inner := fun i (probs : list Q) (j : nat) => assign_probs C B cp cf s i j probs).
  set (outer := fun (probs : list Q) (i : nat) => foldl (inner i) probs (seq 0 C)).
  assert (Hin : ∀ i l p, p < length l →
            length (outer l i) = length l ∧
            outer l i !!! p =
              if existsb (fun j => ((p / C) `mod` B =? i) && (p `mod` C =? j)) (seq 0 C)
              then val p else l !!! p).
  { intros i l p Hp. unfold outer.
    apply (foldl_overwrite (inner i)
             (fun j p => ((p / C) `mod` B =? i) && (p `mod` C =? j)) val); [| |done].
    - intros l' j. unfold inner, assign_probs. apply length_imap.
    - intros l' j p' Hp'. unfold inner. rewrite assign_probs_lookup by done.
      destruct (_ =? i) eqn:Ei; [|done]. destruct (_ =? j) eqn:Ej; [|done].
      apply Nat.eqb_eq in Ei, Ej. unfold val. by rewrite Ei, Ej. }
  assert (Hlo : ∀ l i, length (outer l i) = length l).
  { intros l i. unfold outer. generalize (seq 0 C). intros js. revert l.
    induction js as [|j js IH]; intros l; [done|]. cbn [foldl]. rewrite IH.
    unfold inner, assign_probs. apply length_imap. }
  assert (Hlf : ∀ (ks : list nat) l, length (foldl outer l ks) = length l).
  { induction ks as [|i ks IH]; intros l; [done|]. cbn [foldl]. by rewrite IH, Hlo. }
  split; [by rewrite Hlf, length_replicate|].
  intros p Hp.
  destruct (foldl_overwrite outer
              (fun i p => existsb (fun j => ((p / C) `mod` B =? i) && (p `mod` C =? j))
                                  (seq 0 C))
              val (seq 0 B) (replicate (S * S * B * C) 0%Q) p) as [_ H2].
  - exact Hlo.
  - intros l i p' Hp'. by apply Hin.
  - by rewrite length_replicate.
  - etransitivity; [exact H2|].
    assert (0 < B ∧ 0 < C) as [HB HC] by (split; destruct B, C; lia).
    replace (existsb _ (seq 0 B)) with true.
    + unfold val, read, cp, cf. cbn [base slice].
      replace (0 `min` length s) with 0 by lia.
      replace ((S * S * C) `min` length s) with (S * S * C) by lia. done.
    + symmetry.
      apply existsb_exists. exists ((p / C) `mod` B). split.
      * apply in_seq. split; [lia|]. apply Nat.mod_upper_bound. lia.
      * apply existsb_exists. exists (p `mod` C). split.
        -- apply in_seq. split; [lia|]. apply Nat.mod_upper_bound. lia.
        -- by rewrite !Nat.eqb_refl.
Qed.

Lemma unravel_scores (C B S row col b c : nat) :
  row < S → col < S → b < B → c < C →
  let p := ((row * S + col) * B + b) * C + c in
  p / (B * C) = row * S + col ∧ (p / C) `mod` B = b ∧ p `mod` C = c ∧ p < S * S * B * C.
Proof.
  intros Hrow Hcol Hb Hc p.
  assert (HC : p / C = (row * S + col) * B + b).
  { symmetry. apply (Nat.div_unique _ C _ c); unfold p; nia. }
  assert (HBC : p / (B * C) = row * S + col).
  { symmetry. apply (Nat.div_unique _ (B * C) _ (b * C + c)); unfold p; nia. }
  rewrite HC, HBC. repeat split.
  - symmetry. apply (Nat.mod_unique _ B (row * S + col)); lia.
  - symmetry. apply (Nat.mod_unique _ C ((row * S + col) * B + b)); unfold p; nia.
  - assert (H1 : row * S + col < S * S) by nia.
    assert (H2 : (row * S + col) * B + b < S * S * B) by nia.
    unfold p. nia.
Qed.

(** For any S, C, B and a buffer of the right length, [parse_yolo_output]
    returns S*S*B*C scores, and the score at [(row, col, b, c)] is the class
    probability at [(row, col, c)] times the confidence at [(row, col, b)],
    both as the buffer held them at the call. *)
Theorem scores_are_products (C B S : nat) (img_size : Z * Z) (s : buffer)
    (row col b c : nat) :
  length s = raw_length C B S →
  row < S → col < S → b < B → c < C →
  ∃ boxes probs s',
    parse_yolo_output_with C B S img_size s = Ok (boxes, probs) s' ∧
    length probs = S * S * B * C ∧
    probs !!! (((row * S + col) * B + b) * C + c)
    = (s !!! ((row * S + col) * C + c)%nat
       * s !!! (S * S * C + ((row * S + col) * B + b))%nat)%Q.
Proof.
  intros Hlen Hrow Hcol Hb Hc.
  destruct (parse_returns_probs C B S img_size s Hlen) as (boxes & probs & s' & Hrun & Hl & Hp).
  exists boxes, probs, s'. split; [done|]. split; [done|].
  destruct (unravel_scores C B S row col b c Hrow Hcol Hb Hc) as (E1 & E2 & E3 & Hlt).
  rewrite Hp by exact Hlt. cbv zeta in E1, E2, E3. rewrite E1, E2, E3.
  done.
Qed.

Lemma scores_are_products_witness :
  ∃ boxes probs s',
    parse_yolo_output_with 20 2 7 (700%Z, 700%Z) scenario_buffer = Ok (boxes, probs) s' ∧
    length probs = 7 * 7 * 2 * 20 ∧
    probs !!! (((3 * 7 + 3) * 2 + 0) * 20 + 14)
    = (scenario_buffer !!! ((3 * 7 + 3) * 20 + 14)%nat
       * scenario_buffer !!! (7 * 7 * 20 + ((3 * 7 + 3) * 2 + 0))%nat)%Q.
Proof.
  apply (scores_are_products 20 2 7 (700%Z, 700%Z) scenario_buffer 3 3 0 14);
    [reflexivity|lia..].
Defined.

(** ** The candidates, one per score that passes the threshold *)

Lemma compress_nonzero {A} `{!Inhabited A} (mask : list bool) (l : list A) (n : nat) :
  length mask = length l →
  compress mask l = (fun p => l !!! (p - n)) <$> nonzero_from n mask.
Proof.
  revert l n. induction mask as [|b mask IH]; intros [|x l] n Hlen; simpl in *; try done.
  assert (Htl : compress mask l = (fun p => (x :: l) !!! (p - n)) <$> nonzero_from (S n) mask).
  { rewrite (IH l (S n)) by lia. apply list_fmap_ext. intros i p Hp. cbv beta.
    assert (S n ≤ p) as Hle.
    { clear -Hp. revert n i Hp. induction mask as [|b mask IH]; intros n i Hp; [done|].
      simpl in Hp. destruct b.
      - destruct i as [|i]; simpl in Hp; [injection Hp as <-; lia|].
        specialize (IH (S n) i Hp). lia.
      - specialize (IH (S n) i Hp). lia. }
    replace (p - n) with (S (p - S n)) by lia. done. }
  destruct b; csimpl; rewrite Htl; [|done]. by rewrite Nat.sub_diag.
Qed.

Lemma elem_of_nonzero_from (mask : list bool) (n p : nat) :
  p ∈ nonzero_from n mask ↔ n ≤ p ∧ mask !! (p - n) = Some true.
Proof.
  revert n. induction mask as [|b mask IH]; intros n; simpl.
  - rewrite elem_of_nil. split; [done|]. intros [_ Hm]. by rewrite lookup_nil in Hm.
  - assert (Hrest : p ∈ nonzero_from (S n) mask ↔ S n ≤ p ∧ mask !! (p - S n) = Some true)
      by apply IH.
    destruct b.
    + rewrite elem_of_cons, Hrest. split.
      * intros [->|[Hle Hm]]; [by rewrite Nat.sub_diag|].
        split; [lia|]. by replace (p - n) with (S (p - S n)) by lia.
      * intros [Hle Hm]. destruct (decide (p = n)) as [|Hne]; [by left|right].
        split; [lia|]. by replace (p - n) with (S (p - S n)) in Hm by lia.
    + rewrite Hrest. split.
      * intros [Hle Hm]. split; [lia|]. by replace (p - n) with (S (p - S n)) by lia.
      * intros [Hle Hm]. destruct (decide (p = n)) as [->|Hne].
        { by rewrite Nat.sub_diag in Hm. }
        split; [lia|]. by replace (p - n) with (S (p - S n)) in Hm by lia.
Qed.

Lemma zip_fmap_same {A B C} (f : A → B) (g : A → C) (l : list A) :
  zip (f <$> l) (g <$> l) = (fun x => (f x, g x)) <$> l.
Proof. induction l as [|x l IH]; csimpl; [done|]. by rewrite IH. Qed.

Lemma candidates_alt boxes (s : buffer) (probs : list Q) :
  candidates boxes s probs
  = candidate_at boxes s probs <$> nonzero_from 0 (filter_mat_probs probs).
Proof.
  unfold candidates, filtered_classes, filtered_boxes, filtered_probs, filter_mat_boxes,
    nonzero.
  rewrite (compress_nonzero _ probs 0) by (unfold filter_mat_probs; by rewrite length_fmap).
  rewrite <- !list_fmap_compose, !zip_fmap_same.
  apply list_fmap_ext. intros i p _. unfold candidate_at, p_rcb, compose. cbn [fst snd].
  by rewrite Nat.sub_0_r.
Qed.

Lemma elem_of_candidates boxes (s : buffer) (probs : list Q) (c : nat * box * Q) :
  c ∈ candidates boxes s probs ↔
  ∃ p, p < length probs ∧ (threshold <= probs !!! p)%Q ∧ c = candidate_at boxes s probs p.
Proof.
  rewrite candidates_alt, list_elem_of_fmap. split.
  - intros (p & -> & Hp). exists p. apply elem_of_nonzero_from in Hp as [_ Hp].
    rewrite Nat.sub_0_r in Hp. unfold filter_mat_probs in Hp.
    rewrite list_lookup_fmap in Hp. destruct (probs !! p) as [x|] eqn:E; [|done].
    injection Hp as Hp. apply Qle_bool_iff in Hp.
    split; [by eapply lookup_lt_Some|]. split; [|done].
    by rewrite (list_lookup_total_correct _ _ _ E).
  - intros (p & Hlt & Hge & ->). exists p. split; [done|].
    apply elem_of_nonzero_from. split; [lia|]. rewrite Nat.sub_0_r.
    unfold filter_mat_probs. rewrite list_lookup_fmap.
    rewrite (list_lookup_lookup_total_lt probs p) by done. simpl. f_equal.
    by apply Qle_bool_iff.
Qed.

Lemma threshold_pos : (0 < threshold)%Q.
Proof. reflexivity. Qed.

Lemma sort_index_in_range argsort (probs : list Q) :
  argsort_spec argsort →
  Forall (fun i => i < length (filtered_probs probs))
         (reverse (argsort (filtered_probs probs))).
Proof.
  intros Hspec. destruct (Hspec (filtered_probs probs)) as [Hperm _].
  rewrite reverse_Permutation, Hperm. apply Forall_seq. intros; lia.
Qed.

Lemma filtered_probs_alt (probs : list Q) :
  filtered_probs probs = snd <$> candidates (mkview 0 0) [] probs.
Proof.
  unfold candidates. rewrite snd_zip; [done|].
  rewrite length_zip_with, length_filtered_boxes, length_filtered_classes. lia.
Qed.

Lemma filtered_probs_ge (probs : list Q) (x : Q) :
  x ∈ filtered_probs probs → (threshold <= x)%Q.
Proof.
  rewrite filtered_probs_alt, list_elem_of_fmap. intros (c & -> & Hc).
  apply elem_of_candidates in Hc as (p & _ & Hge & ->). done.
Qed.

(** The first entry is out of reach of the suppression loop. *)
Lemma suppress_first bs (ps : list Q) : suppress bs ps !!! 0 = ps !!! 0.
Proof.
  unfold suppress. apply (foldl_untouched _ (fun _ => True)); [|by apply Forall_true].
  intros a i _. destruct (Qeq_bool (a !!! i) 0); [done|].
  apply suppress_from_below. lia.
Qed.

Lemma survivors_head argsort boxes (s : buffer) (probs : list Q) :
  argsort_spec argsort →
  candidates boxes s probs ≠ [] →
  ∃ c sorted' keep',
    sorted_candidates argsort boxes s probs = c :: sorted' ∧
    survivors argsort boxes s probs = true :: keep'.
Proof.
  intros Hspec Hne.
  pose proof (sort_index_in_range argsort probs Hspec) as Hin.
  destruct (Hspec (filtered_probs probs)) as [Hperm _].
  assert (Hlen : length (candidates boxes s probs) = length (filtered_probs probs)).
  { unfold candidates.
    rewrite !length_zip_with, length_filtered_boxes, length_filtered_classes. lia. }
  unfold sorted_candidates, survivors. cbv zeta.
  set (idx := reverse (argsort (filtered_probs probs))) in *.
  assert (Hidx : length idx = length (filtered_probs probs)).
  { unfold idx. by rewrite length_reverse, Hperm, length_seq. }
  destruct idx as [|i idx'] eqn:Eidx.
  { destruct (candidates boxes s probs); [done|]. simpl in *. lia. }
  rewrite !fmap_cons. eexists _, _.
  set (bs := _ :: _ : list box). set (ps := _ :: _ : list Q).
  pose proof (suppress_zeroed bs ps) as [Hl _].
  pose proof (suppress_first bs ps) as H0.
  destruct (suppress bs ps) as [|x xs]; [done|].
  exists (Qltb 0 <$> xs). split; [done|]. rewrite fmap_cons. f_equal.
  cbn in H0. subst x. apply Qltb_lt.
  apply Forall_cons in Hin as [Hi _].
  pose proof (filtered_probs_ge probs (filtered_probs probs !!! i)) as Hge.
  pose proof threshold_pos.
  assert (threshold <= filtered_probs probs !!! i)%Q; [|lra].
  apply Hge. by apply list_elem_of_lookup_total_2.
Qed.

(** ** The detections returned *)

Lemma det_box_detection_of (c : nat * box * Q) : det_box (detection_of c) = c.1.2.
Proof. by destruct c as [[k []] p]. Qed.

(** The whole call on a buffer of the right length, with what is known of
    the values [parse_yolo_output] returned. *)
Lemma pipeline_facts argsort (img_size : Z * Z) (s : buffer) :
  argsort_spec argsort →
  length s = raw_length num_classes num_boxes grid_size →
  ∃ probs s',
    let boxes := mkview box_offset (grid_size * grid_size * num_boxes * 4) in
    let sorted := sorted_candidates argsort boxes s' probs in
    let keep := survivors argsort boxes s' probs in
    parse_yolo_output img_size s = Ok (boxes, probs) s' ∧
    length probs = grid_size * grid_size * num_boxes * num_classes ∧
    (∀ q, q < size boxes →
          read boxes s' q = resolved img_size grid_size num_boxes q (read boxes s q)) ∧
    get_candidate_objects argsort img_size s
      = Ok (detection_of <$> compress keep sorted) s' ∧
    sorted ≡ₚ candidates boxes s' probs ∧
    StronglySorted (fun c1 c2 => (c2.2 <= c1.2)%Q) sorted ∧
    length keep = length sorted ∧
    (∀ i j, i < j < length sorted → keep !!! i = true →
            np_gt (iou (sorted !!! i).1.2 (sorted !!! j).1.2) iou_threshold = true →
            keep !!! j = false).
Proof.
  intros Hspec Hlen.
  destruct (parse_returns num_classes num_boxes grid_size img_size s Hlen)
    as (probs1 & s1 & Hrun1 & _ & _ & Hgeo).
  destruct (parse_returns_probs num_classes num_boxes grid_size img_size s Hlen)
    as (boxes2 & probs2 & s2 & Hrun2 & Hlp & _).
  destruct (pipeline_returns argsort img_size s Hspec Hlen)
    as (boxes & probs & s' & H1 & H2 & H3 & H4 & H5 & H6).
  unfold parse_yolo_output in H1. rewrite Hrun1 in Hrun2, H1.
  injection Hrun2 as <- <- <-. injection H1 as <- <- <-.
  exists probs1, s1. cbv zeta. fold box_offset. fold parse_yolo_output in Hrun1.
  repeat split; try done.
Qed.

Lemma elem_of_result argsort boxes (s' : buffer) (probs : list Q) (d : detection) :
  sorted_candidates argsort boxes s' probs ≡ₚ candidates boxes s' probs →
  d ∈ detection_of <$> compress (survivors argsort boxes s' probs)
                                 (sorted_candidates argsort boxes s' probs) →
  ∃ p, p < length probs ∧ (threshold <= probs !!! p)%Q ∧
       d = detection_of (candidate_at boxes s' probs p).
Proof.
  intros Hperm Hd. apply list_elem_of_fmap in Hd as (c & -> & Hc).
  apply (sublist_subseteq _ _ (compress_sublist _ _)) in Hc.
  rewrite Hperm in Hc. apply elem_of_candidates in Hc as (p & Hp & Hge & ->).
  by exists p.
Qed.

(** Every detection returned is the row of a score that passes the
    threshold: its score is at least 0.2, and its label is one of the
    twenty class names. *)
Theorem detections_pass_threshold argsort (img_size : Z * Z) (s : buffer) :
  argsort_spec argsort →
  length s = raw_length num_classes num_boxes grid_size →
  ∃ result s',
    get_candidate_objects argsort img_size s = Ok result s' ∧
    ∀ d, d ∈ result → (threshold <= det_score d)%Q ∧ det_label d ∈ classes.
Proof.
  intros Hspec Hlen.
  destruct (pipeline_facts argsort img_size s Hspec Hlen)
    as (probs & s' & Hrun & Hlp & Hgeo & Hres & Hperm & _).
  eexists _, s'. split; [exact Hres|]. intros d Hd.
  apply elem_of_result in Hd as (p & Hp & Hge & ->); [|done].
  split; [done|]. cbn [detection_of det_label candidate_at fst snd].
  apply list_elem_of_lookup_total_2, argmax_axis3_lt.
Qed.

Lemma detections_pass_threshold_witness :
  ∃ result s',
    get_candidate_objects insertion_argsort (700%Z, 700%Z) tie_buffer = Ok result s' ∧
    ∀ d, d ∈ result → (threshold <= det_score d)%Q ∧ det_label d ∈ classes.
Proof.
  apply (detections_pass_threshold insertion_argsort (700%Z, 700%Z) tie_buffer).
  - exact insertion_argsort_spec.
  - reflexivity.
Defined.

(** ** What the suppression keeps and what it drops *)

Lemma compress_lookup {A} (mask : list bool) (l : list A) (i : nat) (x : A) :
  compress mask l !! i = Some x → ∃ k, mask !! k = Some true ∧ l !! k = Some x.
Proof.
  revert l i. induction mask as [|b mask IH]; intros [|a l] i H; simpl in H; try done.
  destruct b.
  - destruct i as [|i]; simpl in H.
    + injection H as <-. by exists 0.
    + destruct (IH l i H) as (k & ? & ?). by exists (S k).
  - destruct (IH l i H) as (k & ? & ?). by exists (S k).
Qed.

Lemma compress_lookup_ordered {A} (mask : list bool) (l : list A) (i j : nat) (x y : A) :
  i < j → compress mask l !! i = Some x → compress mask l !! j = Some y →
  ∃ i' j', i' < j' ∧ mask !! i' = Some true ∧ l !! i' = Some x ∧
           mask !! j' = Some true ∧ l !! j' = Some y.
Proof.
  revert l i j. induction mask as [|b mask IH]; intros [|a l] i j Hij Hx Hy;
    simpl in Hx, Hy; try done.
  destruct b.
  - destruct j as [|j]; [lia|]. destruct i as [|i]; simpl in Hx, Hy.
    + injection Hx as <-. destruct (compress_lookup mask l j y Hy) as (k & ? & ?).
      exists 0, (S k). repeat split; (done || lia).
    + destruct (IH l i j) as (i' & j' & ? & ? & ? & ? & ?); try done; [lia|].
      exists (S i'), (S j'). repeat split; (done || lia).
  - destruct (IH l i j) as (i' & j' & ? & ? & ? & ? & ?); try done.
    exists (S i'), (S j'). repeat split; (done || lia).
Qed.

Lemma elem_of_compress {A} (mask : list bool) (l : list A) (k : nat) (x : A) :
  mask !! k = Some true → l !! k = Some x → x ∈ compress mask l.
Proof.
  revert l k. induction mask as [|b mask IH]; intros [|a l] k Hm Hl; try done.
  destruct k as [|k]; simpl in *.
  - injection Hm as ->. injection Hl as ->. by left.
  - destruct b; [right|]; by eapply IH.
Qed.

(** An entry the inner loop for [i] changed is a later one whose box
    overlaps the box of [i]. *)
Lemma suppress_from_cases bs (i : nat) (ps : list Q) (j : nat) :
  suppress_from bs i ps !!! j = ps !!! j ∨
  (i < j < length bs ∧ np_gt (iou (bs !!! i) (bs !!! j)) iou_threshold = true).
Proof.
  unfold suppress_from.
  assert (H : ∀ (l : list nat) (ps : list Q),
    foldl (fun (probs_filtered : list Q) j =>
             if np_gt (iou (bs !!! i) (bs !!! j)) iou_threshold
             then <[j := 0%Q]> probs_filtered else probs_filtered) ps l !!! j = ps !!! j ∨
    (j ∈ l ∧ np_gt (iou (bs !!! i) (bs !!! j)) iou_threshold = true)).
  { induction l as [|x l IH]; intros ps'; [by left|]. cbn [foldl].
    destruct (IH (if np_gt (iou (bs !!! i) (bs !!! x)) iou_threshold
                  then <[x := 0%Q]> ps' else ps')) as [E|[Hin Hgt]].
    - rewrite E. destruct (np_gt (iou (bs !!! i) (bs !!! x)) iou_threshold) eqn:Hgt;
        [|by left].
      destruct (decide (x = j)) as [->|Hne].
      + right. split; [by left|done].
      + left. by apply list_lookup_total_insert_ne.
    - right. split; [by right|done]. }
  destruct (H (seq (i + 1) (length bs - (i + 1))) ps) as [E|[Hin Hgt]]; [by left|right].
  apply elem_of_seq in Hin. split; [lia|done].
Qed.

(** An entry the suppression changed overlaps an earlier entry that the
    suppression left non-zero. *)
Lemma suppress_cases bs (ps : list Q) (j : nat) :
  suppress bs ps !!! j = ps !!! j ∨
  ∃ i, i < j < length bs ∧ Qeq_bool (suppress bs ps !!! i) 0 = false ∧
       np_gt (iou (bs !!! i) (bs !!! j)) iou_threshold = true.
Proof.
  unfold suppress.
  set (step := fun (probs_filtered : list Q) (i : nat) =>
                 if Qeq_bool (probs_filtered !!! i) 0 then probs_filtered
                 else suppress_from bs i probs_filtered).
  assert (Hstep : ∀ a x k, k ≤ x → step a x !!! k = a !!! k).
  { intros a x k Hk. unfold step. destruct (Qeq_bool (a !!! x) 0); [done|].
    by apply suppress_from_below. }
  assert (H : ∀ k,
    foldl step ps (seq 0 k) !!! j = ps !!! j ∨
    ∃ i, i < k ∧ i < j < length bs ∧ Qeq_bool (foldl step ps (seq 0 k) !!! i) 0 = false ∧
         np_gt (iou (bs !!! i) (bs !!! j)) iou_threshold = true).
  { induction k as [|k IH]; [by left|].
    rewrite seq_S, foldl_app. cbn [foldl Nat.add].
    set (cur := foldl step ps (seq 0 k)) in *.
    assert (Hkeep : ∀ i, i < k → Qeq_bool (cur !!! i) 0 = false →
                         Qeq_bool (step cur k !!! i) 0 = false).
    { intros i Hi Hnz. rewrite Hstep by lia. done. }
    assert (Hcase : step cur k !!! j = cur !!! j ∨
                    (Qeq_bool (cur !!! k) 0 = false ∧ k < j < length bs ∧
                     np_gt (iou (bs !!! k) (bs !!! j)) iou_threshold = true)).
    { unfold step. destruct (Qeq_bool (cur !!! k) 0) eqn:Ek; [by left|].
      destruct (suppress_from_cases bs k cur j) as [E|[Hj Hgt]]; [by left|by right]. }
    destruct Hcase as [E|(Hnz & Hj & Hgt)].
    - rewrite E. destruct IH as [IH|(i & Hi & Hj & Hnz & Hgt)]; [by left|right].
      exists i. repeat split; try done; try lia. by apply Hkeep.
    - right. exists k. repeat split; try done; try lia. by rewrite Hstep. }
  destruct (H (length bs)) as [E|(i & _ & Hj & Hnz & Hgt)]; [by left|right].
  by exists i.
Qed.

Lemma sorted_candidates_lookup argsort boxes (s : buffer) (probs : list Q) (k : nat) :
  argsort_spec argsort →
  let idx := reverse (argsort (filtered_probs probs)) in
  k < length idx →
  (sorted_candidates argsort boxes s probs !!! k).1.2
    = ((filtered_boxes boxes s probs !!!.) <$> idx) !!! k ∧
  (sorted_candidates argsort boxes s probs !!! k).2
    = ((filtered_probs probs !!!.) <$> idx) !!! k ∧
  (threshold <= ((filtered_probs probs !!!.) <$> idx) !!! k)%Q.
Proof.
  intros Hspec idx Hk.
  pose proof (sort_index_in_range argsort probs Hspec) as Hin. fold idx in Hin.
  assert (Hi : idx !!! k < length (filtered_probs probs)) by (by apply Forall_lookup_total_1).
  unfold sorted_candidates, candidates. fold idx.
  rewrite !lookup_total_fmap_nat by done.
  rewrite !lookup_total_zip;
    rewrite ?length_zip_with, ?length_filtered_boxes, ?length_filtered_classes; try lia.
  repeat split. apply (filtered_probs_ge probs). by apply list_elem_of_lookup_total_2.
Qed.

(** Every candidate the suppression drops overlaps, by more than the
    threshold, a candidate placed before it that survives. *)
Lemma survivors_maximal argsort boxes (s : buffer) (probs : list Q) (j : nat) :
  argsort_spec argsort →
  j < length (sorted_candidates argsort boxes s probs) →
  survivors argsort boxes s probs !!! j = false →
  ∃ i, i < j ∧ survivors argsort boxes s probs !!! i = true ∧
       np_gt (iou (sorted_candidates argsort boxes s probs !!! i).1.2
                  (sorted_candidates argsort boxes s probs !!! j).1.2) iou_threshold = true.
Proof.
  intros Hspec Hj Hdrop.
  pose proof (fun k => sorted_candidates_lookup argsort boxes s probs k Hspec) as Hlook.
  cbv zeta in Hlook. unfold survivors in *. cbv zeta in *.
  unfold sorted_candidates in Hj. rewrite length_fmap in Hj.
  set (idx := reverse (argsort (filtered_probs probs))) in *.
  set (bs := (filtered_boxes boxes s probs !!!.) <$> idx) in *.
  set (ps := (filtered_probs probs !!!.) <$> idx) in *.
  assert (Hlb : length bs = length idx) by (unfold bs; by rewrite length_fmap).
  assert (Hlp : length ps = length idx) by (unfold ps; by rewrite length_fmap).
  destruct (suppress_zeroed bs ps) as [Hls Hz].
  pose proof threshold_pos as Hthr.
  rewrite lookup_total_fmap_Q in Hdrop by lia.
  apply Qltb_ge in Hdrop.
  destruct (suppress_cases bs ps j) as [E|(i & Hij & Hnz & Hgt)].
  - destruct (Hlook j Hj) as (_ & _ & Hge). rewrite E in Hdrop. lra.
  - exists i. split; [lia|]. assert (Hi : i < length idx) by lia.
    destruct (Hlook i Hi) as (Hbi & _ & Hge). destruct (Hlook j Hj) as (Hbj & _ & _).
    rewrite Hbi, Hbj. split; [|done].
    rewrite lookup_total_fmap_Q by lia. apply Qltb_lt.
    destruct (Hz i) as [E|E]; [rewrite E; lra|].
    rewrite E in Hnz. done.
Qed.

Lemma result_pairwise argsort (img_size : Z * Z) (s : buffer) :
  argsort_spec argsort →
  length s = raw_length num_classes num_boxes grid_size →
  ∃ result s',
    get_candidate_objects argsort img_size s = Ok result s' ∧
    ∀ i j d1 d2, i < j → result !! i = Some d1 → result !! j = Some d2 →
                 np_gt (iou (det_box d1) (det_box d2)) iou_threshold = false.
Proof.
  intros Hspec Hlen.
  destruct (pipeline_facts argsort img_size s Hspec Hlen)
    as (probs & s' & Hrun & Hlp & Hgeo & Hres & Hperm & Hsorted & Hkeep & Hsup).
  eexists _, s'. split; [exact Hres|]. intros i j d1 d2 Hij H1 H2.
  rewrite list_lookup_fmap in H1, H2.
  destruct (compress _ _ !! i) as [c1|] eqn:E1; [|done].
  destruct (compress _ _ !! j) as [c2|] eqn:E2; [|done].
  injection H1 as <-. injection H2 as <-.
  destruct (compress_lookup_ordered _ _ i j c1 c2 Hij E1 E2)
    as (i' & j' & Hij' & Hki & Hsi & Hkj & Hsj).
  rewrite !det_box_detection_of.
  destruct (np_gt _ _) eqn:Hgt; [|done]. exfalso.
  assert (Hlt : j' < length (sorted_candidates argsort
            (mkview box_offset (grid_size * grid_size * num_boxes * 4)) s' probs)).
  { by eapply lookup_lt_Some. }
  apply list_lookup_total_correct in Hki, Hsi, Hkj, Hsj.
  specialize (Hsup i' j'). rewrite Hsi, Hsj, Hkj in Hsup.
  assert (true = false); [|done]. apply Hsup; [lia|done|done].
Qed.

(** No two detections returned overlap by more than the threshold: for any
    two of them the test [iou > 0.5] of the suppression is false. *)
Theorem detections_do_not_overlap argsort (img_size : Z * Z) (s : buffer) :
  argsort_spec argsort →
  length s = raw_length num_classes num_boxes grid_size →
  ∃ result s',
    get_candidate_objects argsort img_size s = Ok result s' ∧
    ∀ i j d1 d2, i < j → result !! i = Some d1 → result !! j = Some d2 →
                 np_gt (iou (det_box d1) (det_box d2)) iou_threshold = false.
Proof. apply result_pairwise. Qed.

Lemma detections_do_not_overlap_witness :
  ∃ result s',
    get_candidate_objects insertion_argsort (700%Z, 700%Z) tie_buffer = Ok result s' ∧
    ∀ i j d1 d2, i < j → result !! i = Some d1 → result !! j = Some d2 →
                 np_gt (iou (det_box d1) (det_box d2)) iou_threshold = false.
Proof.
  apply (detections_do_not_overlap insertion_argsort (700%Z, 700%Z) tie_buffer).
  - exact insertion_argsort_spec.
  - reflexivity.
Defined.

(** Every score that passes the threshold is accounted for in the result:
    its candidate is returned, or a returned detection of at least the same
    score overlaps its box by more than the threshold. *)
Theorem dropped_candidates_overlap_a_detection argsort (img_size : Z * Z) (s : buffer) :
  argsort_spec argsort →
  length s = raw_length num_classes num_boxes grid_size →
  ∃ boxes probs s' result,
    parse_yolo_output img_size s = Ok (boxes, probs) s' ∧
    get_candidate_objects argsort img_size s = Ok result s' ∧
    ∀ c, c ∈ candidates boxes s' probs →
         detection_of c ∈ result ∨
         ∃ d, d ∈ result ∧ (c.2 <= det_score d)%Q ∧
              np_gt (iou (det_box d) c.1.2) iou_threshold = true.
Proof.
  intros Hspec Hlen.
  destruct (pipeline_facts argsort img_size s Hspec Hlen)
    as (probs & s' & Hrun & Hlp & Hgeo & Hres & Hperm & Hsorted & Hkeep & Hsup).
  eexists _, probs, s', _. split; [exact Hrun|]. split; [exact Hres|].
  set (boxes := mkview box_offset (grid_size * grid_size * num_boxes * 4)) in *.
  set (sorted := sorted_candidates argsort boxes s' probs) in *.
  set (keep := survivors argsort boxes s' probs) in *.
  intros c Hc. rewrite <- Hperm in Hc.
  apply list_elem_of_lookup_1 in Hc as [j Hj].
  assert (Hjlt : j < length sorted) by (by eapply lookup_lt_Some).
  destruct (keep !!! j) eqn:Ek.
  - left. apply list_elem_of_fmap_2. apply (elem_of_compress keep sorted j); [|done].
    rewrite <- Ek. apply list_lookup_lookup_total_lt. by rewrite Hkeep.
  - right. destruct (survivors_maximal argsort boxes s' probs j Hspec Hjlt Ek)
      as (i & Hij & Hki & Hgt).
    fold sorted keep in Hki, Hgt.
    exists (detection_of (sorted !!! i)).
    assert (Hi : sorted !! i = Some (sorted !!! i))
      by (apply list_lookup_lookup_total_lt; lia).
    split; [|split].
    + apply list_elem_of_fmap_2. apply (elem_of_compress keep sorted i); [|done].
      rewrite <- Hki. apply list_lookup_lookup_total_lt. rewrite Hkeep. lia.
    + cbn [detection_of det_score].
      apply (StronglySorted_lookup _ sorted i j (sorted !!! i) c Hsorted Hij Hi Hj).
    + rewrite det_box_detection_of.
      by rewrite (list_lookup_total_correct _ _ _ Hj) in Hgt.
Qed.

Lemma dropped_candidates_overlap_a_detection_witness :
  ∃ boxes probs s' result,
    parse_yolo_output (700%Z, 700%Z) tie_buffer = Ok (boxes, probs) s' ∧
    get_candidate_objects insertion_argsort (700%Z, 700%Z) tie_buffer = Ok result s' ∧
    ∀ c, c ∈ candidates boxes s' probs →
         detection_of c ∈ result ∨
         ∃ d, d ∈ result ∧ (c.2 <= det_score d)%Q ∧
              np_gt (iou (det_box d) c.1.2) iou_threshold = true.
Proof.
  apply (dropped_candidates_overlap_a_detection insertion_argsort (700%Z, 700%Z) tie_buffer).
  - exact insertion_argsort_spec.
  - reflexivity.
Defined.

Lemma candidates_nil_iff boxes (s : buffer) (probs : list Q) :
  candidates boxes s probs = [] ↔ ∀ x, x ∈ probs → (x < threshold)%Q.
Proof.
  split.
  - intros Hnil x Hx. apply Qnot_le_lt. intros Hge.
    apply list_elem_of_lookup_1 in Hx as [p Hp].
    assert (candidate_at boxes s probs p ∈ candidates boxes s probs) as Hin.
    { apply elem_of_candidates. exists p. split; [by eapply lookup_lt_Some|].
      split; [|done]. by rewrite (list_lookup_total_correct _ _ _ Hp). }
    rewrite Hnil in Hin. by apply elem_of_nil in Hin.
  - intros Hall. destruct (candidates boxes s probs) as [|c l] eqn:E; [done|].
    assert (c ∈ candidates boxes s probs) as Hin by (rewrite E; by left).
    apply elem_of_candidates in Hin as (p & Hp & Hge & _).
    specialize (Hall (probs !!! p) (list_elem_of_lookup_total_2 _ _ Hp)).
    apply Qlt_not_le in Hall. done.
Qed.

Lemma result_nil_iff argsort (img_size : Z * Z) (s : buffer) :
  argsort_spec argsort →
  length s = raw_length num_classes num_boxes grid_size →
  ∃ boxes probs s' result,
    parse_yolo_output img_size s = Ok (boxes, probs) s' ∧
    get_candidate_objects argsort img_size s = Ok result s' ∧
    (result = [] ↔ ∀ x, x ∈ probs → (x < threshold)%Q).
Proof.
  intros Hspec Hlen.
  destruct (pipeline_facts argsort img_size s Hspec Hlen)
    as (probs & s' & Hrun & Hlp & Hgeo & Hres & Hperm & Hsorted & Hkeep & Hsup).
  eexists _, probs, s', _. split; [exact Hrun|]. split; [exact Hres|].
  set (boxes := mkview box_offset (grid_size * grid_size * num_boxes * 4)) in *.
  rewrite <- (candidates_nil_iff boxes s' probs). split.
  - intros Hnil. destruct (candidates boxes s' probs) as [|c0 l0] eqn:E; [done|].
    destruct (survivors_head argsort boxes s' probs Hspec) as (c & sorted' & keep' & Hs & Hk);
      [by rewrite E|].
    rewrite Hs, Hk in Hnil. done.
  - intros Hnil. rewrite Hnil in Hperm. apply Permutation_nil_r in Hperm.
    rewrite Hperm. by destruct (survivors argsort boxes s' probs).
Qed.

(** The result is empty exactly when no score reaches the threshold: the
    suppression never removes every candidate. *)
Theorem result_empty_iff_no_score_passes argsort (img_size : Z * Z) (s : buffer) :
  argsort_spec argsort →
  length s = raw_length num_classes num_boxes grid_size →
  ∃ boxes probs s' result,
    parse_yolo_output img_size s = Ok (boxes, probs) s' ∧
    get_candidate_objects argsort img_size s = Ok result s' ∧
    (result = [] ↔ ∀ x, x ∈ probs → (x < threshold)%Q).
Proof. apply result_nil_iff. Qed.

Lemma result_empty_iff_no_score_passes_witness :
  ∃ boxes probs s' result,
    parse_yolo_output (700%Z, 700%Z) (replicate 1470 0%Q) = Ok (boxes, probs) s' ∧
    get_candidate_objects insertion_argsort (700%Z, 700%Z) (replicate 1470 0%Q)
      = Ok result s' ∧
    (result = [] ↔ ∀ x, x ∈ probs → (x < threshold)%Q).
Proof.
  apply (result_empty_iff_no_score_passes insertion_argsort (700%Z, 700%Z)
           (replicate 1470 0%Q)).
  - exact insertion_argsort_spec.
  - reflexivity.
Defined.

(** When the result is not empty its first detection carries the highest
    of all the scores. *)
Theorem first_detection_has_highest_score argsort (img_size : Z * Z) (s : buffer) :
  argsort_spec argsort →
  length s = raw_length num_classes num_boxes grid_size →
  ∃ boxes probs s' result,
    parse_yolo_output img_size s = Ok (boxes, probs) s' ∧
    get_candidate_objects argsort img_size s = Ok result s' ∧
    ∀ d, head result = Some d → ∀ x, x ∈ probs → (x <= det_score d)%Q.
Proof.
  intros Hspec Hlen.
  destruct (pipeline_facts argsort img_size s Hspec Hlen)
    as (probs & s' & Hrun & Hlp & Hgeo & Hres & Hperm & Hsorted & Hkeep & Hsup).
  eexists _, probs, s', _. split; [exact Hrun|]. split; [exact Hres|].
  set (boxes := mkview box_offset (grid_size * grid_size * num_boxes * 4)) in *.
  intros d Hd x Hx.
  destruct (candidates boxes s' probs) as [|c0 l0] eqn:E.
  { apply Permutation_nil_r in Hperm. rewrite Hperm in Hd.
    by destruct (survivors argsort boxes s' probs). }
  destruct (survivors_head argsort boxes s' probs Hspec) as (c & sorted' & keep' & Hs & Hk);
    [by rewrite E|].
  rewrite Hs, Hk in Hd. cbn in Hd. injection Hd as <-. cbn [detection_of det_score].
  rewrite Hs in Hsorted, Hperm. apply StronglySorted_inv in Hsorted as [_ Hle].
  assert (Hc : (threshold <= c.2)%Q).
  { assert (c ∈ candidates boxes s' probs) as Hin by (rewrite E, <- Hperm; by left).
    by apply elem_of_candidates in Hin as (p & _ & Hge & ->). }
  destruct (Qlt_le_dec x threshold) as [Hlt|Hge]; [lra|].
  apply list_elem_of_lookup_1 in Hx as [p Hp].
  assert (candidate_at boxes s' probs p ∈ c :: sorted') as Hin.
  { rewrite Hperm, <- E. apply elem_of_candidates. exists p.
    split; [by eapply lookup_lt_Some|]. split; [|done].
    by rewrite (list_lookup_total_correct _ _ _ Hp). }
  apply elem_of_cons in Hin as [Heq|Hin].
  - rewrite <- Heq. cbn [candidate_at snd].
    rewrite (list_lookup_total_correct _ _ _ Hp). lra.
  - rewrite Forall_forall in Hle. specialize (Hle _ Hin). cbn [candidate_at snd] in Hle.
    by rewrite (list_lookup_total_correct _ _ _ Hp) in Hle.
Qed.

Lemma first_detection_has_highest_score_witness :
  ∃ boxes probs s' result,
    parse_yolo_output (700%Z, 700%Z) two_class_buffer = Ok (boxes, probs) s' ∧
    get_candidate_objects insertion_argsort (700%Z, 700%Z) two_class_buffer
      = Ok result s' ∧
    ∀ d, head result = Some d → ∀ x, x ∈ probs → (x <= det_score d)%Q.
Proof.
  apply (first_detection_has_highest_score insertion_argsort (700%Z, 700%Z)
           two_class_buffer).
  - exact insertion_argsort_spec.
  - reflexivity.
Defined.

(** ** The class id of a candidate *)

Lemma first_true_spec (row : list bool) (j : nat) :
  row !! j = Some true →
  ∃ k, first_true row = Some k ∧ k ≤ j ∧ row !! k = Some true ∧
       ∀ k', k' < k → row !! k' = Some false.
Proof.
  revert j. induction row as [|b row IH]; intros j Hj; [done|].
  destruct b; simpl.
  - exists 0. repeat split; (done || lia).
  - destruct j as [|j]; [done|]. simpl in Hj.
    destruct (IH j Hj) as (k & -> & Hle & Hk & Hlow). exists (S k).
    repeat split; try done; try lia.
    intros [|k'] Hk'; [done|]. simpl. apply Hlow. lia.
Qed.

Lemma cell_box_p_rcb (p : nat) : cell_box (p_rcb p) = p / num_classes.
Proof.
  unfold cell_box, p_rcb, p_row, p_col, p_box, grid_size, num_boxes, num_classes.
  change (7 * 2 * 20) with (20 * 2 * 7). change (2 * 20) with (20 * 2).
  rewrite <- !Nat.Div0.div_div.
  pose proof (Nat.div_mod_eq (p / 20) 2). pose proof (Nat.div_mod_eq (p / 20 / 2) 7).
  lia.
Qed.

(** The class id of a candidate is the lowest class of its box whose score
    passes the threshold, which is the class of its own score only when no
    lower class of the box passes. *)
Theorem class_id_is_lowest_passing_class boxes (s : buffer) (probs : list Q) (p : nat) :
  length probs = grid_size * grid_size * num_boxes * num_classes →
  p < length probs → (threshold <= probs !!! p)%Q →
  let c := candidate_at boxes s probs p in
  let first := p - p_class p in
  c ∈ candidates boxes s probs ∧
  c.1.1 ≤ p_class p ∧
  (threshold <= probs !!! (first + c.1.1)%nat)%Q ∧
  (∀ k, k < c.1.1 → (probs !!! (first + k)%nat < threshold)%Q).
Proof.
  intros Hlen Hp Hge c first.
  split; [apply elem_of_candidates; by exists p|].
  unfold c, candidate_at. cbn [fst snd]. rewrite cell_box_p_rcb.
  set (mask := filter_mat_probs probs).
  set (a := p / num_classes).
  assert (Hdm : p = a * num_classes + p_class p).
  { unfold a, p_class. pose proof (Nat.div_mod_eq p num_classes). lia. }
  assert (Hcls : p_class p < num_classes).
  { unfold p_class. apply Nat.mod_upper_bound. unfold num_classes. lia. }
  assert (Ha : a < grid_size * grid_size * num_boxes).
  { unfold a. apply Nat.Div0.div_lt_upper_bound. lia. }
  assert (Hfirst : first = a * num_classes) by (unfold first; lia).
  assert (Hmask : ∀ q, q < length probs → mask !! q = Some (Qle_bool threshold (probs !!! q))).
  { intros q Hq. unfold mask, filter_mat_probs. rewrite list_lookup_fmap.
    by rewrite (list_lookup_lookup_total_lt probs q). }
  set (row := take num_classes (drop (a * num_classes) mask)).
  assert (Hrow : ∀ k, k < num_classes → row !! k = mask !! (a * num_classes + k)).
  { intros k Hk. unfold row. by rewrite lookup_take_lt, lookup_drop. }
  assert (Hamax : argmax_axis3 mask !!! a = argmax_bool row).
  { unfold argmax_axis3. rewrite lookup_total_fmap_nat by (by rewrite length_seq).
    by rewrite lookup_total_seq_lt. }
  rewrite Hamax.
  destruct (first_true_spec row (p_class p)) as (k & Hk & Hle & Htrue & Hlow).
  { rewrite Hrow, <- Hdm, Hmask by done. f_equal. by apply Qle_bool_iff. }
  unfold argmax_bool. rewrite Hk. cbn [default]. unfold id. split; [done|].
  rewrite Hfirst.
  assert (Hin : ∀ k', k' ≤ k → a * num_classes + k' < length probs).
  { intros k' Hk'. rewrite Hlen. clear -Ha Hk' Hle Hcls. clearbody a.
    generalize dependent (p_class p). intros pc Hcls Hle.
    unfold grid_size, num_boxes, num_classes in *.
    change (7 * 7 * 2) with 98 in Ha. change (7 * 7 * 2 * 20) with 1960. lia. }
  split.
  - rewrite Hrow in Htrue by lia. rewrite Hmask in Htrue by (apply Hin; lia).
    injection Htrue as Htrue.
    by apply Qle_bool_iff.
  - intros k' Hk'. specialize (Hlow k' Hk').
    rewrite Hrow in Hlow by lia. rewrite Hmask in Hlow by (apply Hin; lia).
    injection Hlow as Hlow.
    apply Qnot_le_lt. intros Hc. apply Qle_bool_iff in Hc. congruence.
Qed.

Lemma class_id_is_lowest_passing_class_witness :
  let probs := <[1 := 1%Q]> (<[0 := 1#2]> (replicate 1960 0%Q)) in
  let c := candidate_at (mkview 0 0) [] probs 1 in
  let first := 1 - p_class 1 in
  c ∈ candidates (mkview 0 0) [] probs ∧
  c.1.1 ≤ p_class 1 ∧
  (threshold <= probs !!! (first + c.1.1)%nat)%Q ∧
  (∀ k, k < c.1.1 → (probs !!! (first + k)%nat < threshold)%Q).
Proof.
  apply (class_id_is_lowest_passing_class (mkview 0 0) []
           (<[1 := 1%Q]> (<[0 := 1#2]> (replicate 1960 0%Q))) 1).
  - reflexivity.
  - vm_compute. lia.
  - vm_compute. discriminate.
Defined.

(** ** The order among equal scores is all that [argsort] decides *)

Lemma insert_index_before_perm (a : list Q) (i : nat) (l : list nat) :
  insert_index_before a i l ≡ₚ i :: l.
Proof.
  induction l as [|j l IH]; simpl; [done|].
  destruct (Qle_bool _ _); [done|]. rewrite IH. apply Permutation_swap.
Qed.

Lemma insert_index_before_sorted (a : list Q) (i : nat) (l : list nat) :
  StronglySorted (fun j k => (a !!! j <= a !!! k)%Q) l →
  StronglySorted (fun j k => (a !!! j <= a !!! k)%Q) (insert_index_before a i l).
Proof.
  induction 1 as [|j l Hl IH Hj]; simpl.
  - repeat constructor.
  - destruct (Qle_bool (a !!! i) (a !!! j)) eqn:E.
    + apply Qle_bool_iff in E. constructor; [by constructor|].
      constructor; [done|]. eapply Forall_impl; [exact Hj|]. intros x Hx. cbv beta in *. lra.
    + assert (a !!! j <= a !!! i)%Q as Hle.
      { apply Qlt_le_weak, Qnot_le_lt. intros H. apply Qle_bool_iff in H. congruence. }
      constructor; [done|]. rewrite insert_index_before_perm. by constructor.
Qed.

Lemma insertion_argsort_before_spec : argsort_spec insertion_argsort_before.
Proof.
  intros a. unfold insertion_argsort_before.
  assert (H : ∀ n,
    foldl (fun sorted i => insert_index_before a i sorted) [] (seq 0 n) ≡ₚ seq 0 n ∧
    StronglySorted (fun j k => (a !!! j <= a !!! k)%Q)
      (foldl (fun sorted i => insert_index_before a i sorted) [] (seq 0 n))).
  { induction n as [|n [Hperm Hsorted]]; [split; [done|constructor]|].
    rewrite seq_S, foldl_app. cbn [foldl Nat.add]. split.
    - rewrite insert_index_before_perm, Hperm. apply Permutation_cons_append.
    - by apply insert_index_before_sorted. }
  destruct (H (length a)) as [Hperm Hsorted]. split; [done|].
  by apply (StronglySorted_fmap _ (fun j k => (a !!! j <= a !!! k)%Q)).
Qed.

(** Two implementations of [argsort] agree on an array without equal
    values. *)
Lemma argsort_unique argsort1 argsort2 (a : list Q) :
  argsort_spec argsort1 → argsort_spec argsort2 →
  (∀ i j, i < j < length a → ¬ (a !!! i == a !!! j)%Q) →
  argsort1 a = argsort2 a.
Proof.
  intros H1 H2 Hdistinct.
  destruct (H1 a) as [Hp1 Hs1]. destruct (H2 a) as [Hp2 Hs2].
  apply StronglySorted_fmap_inv in Hs1, Hs2.
  apply (StronglySorted_unique_strong (fun x y => (a !!! x <= a !!! y)%Q));
    [|done|done|by rewrite Hp1, Hp2].
  intros x y Hx Hy Hxy Hyx.
  rewrite Hp1 in Hx. rewrite Hp2 in Hy. apply elem_of_seq in Hx, Hy.
  assert (a !!! x == a !!! y)%Q as Heq by lra.
  destruct (Nat.lt_trichotomy x y) as [Hlt|[->|Hgt]]; [|done|].
  - exfalso. apply (Hdistinct x y); [lia|done].
  - exfalso. apply (Hdistinct y x); [lia|]. by symmetry.
Qed.

(** When no two scores that pass the threshold are equal, the result does
    not depend on the implementation of [argsort]. *)
Theorem result_unique_without_ties argsort1 argsort2 (img_size : Z * Z) (s : buffer) :
  argsort_spec argsort1 → argsort_spec argsort2 →
  length s = raw_length num_classes num_boxes grid_size →
  ∃ boxes probs s',
    parse_yolo_output img_size s = Ok (boxes, probs) s' ∧
    ((∀ p q, p < q < length probs → (threshold <= probs !!! p)%Q →
             ¬ (probs !!! p == probs !!! q)%Q) →
     get_candidate_objects argsort1 img_size s = get_candidate_objects argsort2 img_size s).
Proof.
  intros H1 H2 Hlen.
  destruct (parse_returns num_classes num_boxes grid_size img_size s Hlen)
    as (probs & s' & Hrun & _).
  fold parse_yolo_output in Hrun. eexists _, probs, s'. split; [exact Hrun|].
  intros Hdistinct. rewrite !get_candidate_objects_unfold, Hrun. cbn [fst snd].
  rewrite (argsort_unique argsort1 argsort2); [done..|].
  intros i j Hij Heq.
  unfold filtered_probs in *.
  rewrite (compress_nonzero _ probs 0) in *
    by (unfold filter_mat_probs; by rewrite length_fmap).
  rewrite length_fmap in Hij.
  set (nz := nonzero_from 0 (filter_mat_probs probs)) in *.
  rewrite !lookup_total_fmap_nat in Heq by lia. rewrite !Nat.sub_0_r in Heq.
  assert (Hsorted : StronglySorted lt nz).
  { unfold nz. generalize 0 at 1. generalize (filter_mat_probs probs).
    induction l as [|b l IH]; intros n; simpl; [constructor|].
    destruct b; [|apply IH]. constructor; [apply IH|].
    apply Forall_forall. intros x Hx. apply elem_of_nonzero_from in Hx. lia. }
  assert (Hi : nz !! i = Some (nz !!! i)) by (apply list_lookup_lookup_total_lt; lia).
  assert (Hj : nz !! j = Some (nz !!! j)) by (apply list_lookup_lookup_total_lt; lia).
  pose proof (StronglySorted_lookup _ nz i j _ _ Hsorted (proj1 Hij) Hi Hj) as Hlt.
  assert (Hpj : nz !!! j ∈ nz) by (by eapply list_elem_of_lookup_2).
  assert (Hpi : nz !!! i ∈ nz) by (by eapply list_elem_of_lookup_2).
  apply elem_of_nonzero_from in Hpj as [_ Hmj], Hpi as [_ Hmi].
  rewrite Nat.sub_0_r in Hmj, Hmi. unfold filter_mat_probs in Hmj, Hmi.
  rewrite list_lookup_fmap in Hmj, Hmi.
  destruct (probs !! (nz !!! j)) as [y|] eqn:Ey; [|done].
  destruct (probs !! (nz !!! i)) as [x|] eqn:Ex; [|done].
  injection Hmi as Hmi. apply Qle_bool_iff in Hmi.
  apply (Hdistinct (nz !!! i) (nz !!! j)); [|by rewrite (list_lookup_total_correct _ _ _ Ex)|done].
  split; [done|]. by eapply lookup_lt_Some.
Qed.

Lemma result_unique_without_ties_witness :
  ∃ boxes probs s',
    parse_yolo_output (700%Z, 700%Z) two_class_buffer = Ok (boxes, probs) s' ∧
    ((∀ p q, p < q < length probs → (threshold <= probs !!! p)%Q →
             ¬ (probs !!! p == probs !!! q)%Q) →
     get_candidate_objects insertion_argsort (700%Z, 700%Z) two_class_buffer
     = get_candidate_objects insertion_argsort_before (700%Z, 700%Z) two_class_buffer).
Proof.
  apply (result_unique_without_ties insertion_argsort insertion_argsort_before
           (700%Z, 700%Z) two_class_buffer).
  - exact insertion_argsort_spec.
  - exact insertion_argsort_before_spec.
  - reflexivity.
Defined.

(** ** A second call on the same buffer *)

(** The buffer a call leaves has the length it had, so a second call on it
    decodes too, and resolves the geometry a second time: after two calls
    the geometry region holds the resolved values of the resolved values. *)
Theorem second_call_resolves_again argsort (img_size : Z * Z) (s : buffer) (p : nat) :
  length s = raw_length num_classes num_boxes grid_size →
  let s1 := final_buffer (get_candidate_objects argsort img_size s) in
  let s2 := final_buffer (get_candidate_objects argsort img_size s1) in
  length s1 = raw_length num_classes num_boxes grid_size ∧
  (p < box_offset → s2 !!! p = s !!! p) ∧
  (box_offset ≤ p < length s →
   s2 !!! p = resolved img_size grid_size num_boxes (p - box_offset)
                (resolved img_size grid_size num_boxes (p - box_offset) (s !!! p))).
Proof.
  intros Hlen s1 s2. unfold s2, s1. rewrite !get_candidate_objects_buffer.
  destruct (parse_returns num_classes num_boxes grid_size img_size s Hlen)
    as (probs1 & t1 & Hrun1 & Hlen1 & Hpre1 & Hgeo1).
  unfold parse_yolo_output. rewrite Hrun1. cbn [final_buffer].
  assert (Hlen1' : length t1 = raw_length num_classes num_boxes grid_size) by congruence.
  destruct (parse_returns num_classes num_boxes grid_size img_size t1 Hlen1')
    as (probs2 & t2 & Hrun2 & Hlen2 & Hpre2 & Hgeo2).
  rewrite Hrun2. cbn [final_buffer]. split; [done|]. split.
  - intros Hp. rewrite Hpre2, Hpre1 by exact Hp. done.
  - intros [Hlo Hhi].
    assert (Hq : p - box_offset < grid_size * grid_size * num_boxes * 4).
    { rewrite Hlen in Hhi. unfold raw_length in Hhi. unfold box_offset in *. lia. }
    specialize (Hgeo1 (p - box_offset) Hq). specialize (Hgeo2 (p - box_offset) Hq).
    unfold read in Hgeo1, Hgeo2. cbn [base] in Hgeo1, Hgeo2. fold box_offset in Hgeo1, Hgeo2.
    replace (box_offset + (p - box_offset)) with p in Hgeo1, Hgeo2 by lia.
    by rewrite Hgeo2, Hgeo1.
Qed.

Lemma second_call_resolves_again_witness :
  let s1 := final_buffer
              (get_candidate_objects insertion_argsort (700%Z, 700%Z) scenario_buffer) in
  let s2 := final_buffer (get_candidate_objects insertion_argsort (700%Z, 700%Z) s1) in
  length s1 = raw_length num_classes num_boxes grid_size ∧
  (1272 < box_offset → s2 !!! 1272 = scenario_buffer !!! 1272) ∧
  (box_offset ≤ 1272 < length scenario_buffer →
   s2 !!! 1272 = resolved (700%Z, 700%Z) grid_size num_boxes (1272 - box_offset)
                   (resolved (700%Z, 700%Z) grid_size num_boxes (1272 - box_offset)
                      (scenario_buffer !!! 1272))).
Proof.
  apply (second_call_resolves_again insertion_argsort (700%Z, 700%Z) scenario_buffer 1272).
  reflexivity.
Defined.

(** ** The rectangle of a result *)

Lemma int_nonneg (v : Q) : (0 <= v)%Q → (0 <= int_ v)%Z.
Proof.
  intros H. unfold int_. apply Z.quot_pos; [|done].
  unfold Qle in H. simpl in H. lia.
Qed.

(** For a result whose center, rounded, lies in the image and whose sizes
    are not negative, the rectangle [show_results] computes lies in the
    image and contains the center. *)
Theorem rectangle_in_image (img_width img_height : Z) (result : detection) :
  (0 <= int_ (det_x result) <= img_width)%Z →
  (0 <= int_ (det_y result) <= img_height)%Z →
  (0 <= det_w result)%Q → (0 <= det_h result)%Q →
  ∃ xmin ymin xmax ymax,
    rectangle img_width img_height result = (xmin, ymin, xmax, ymax) ∧
    (0 <= xmin <= int_ (det_x result))%Z ∧ (int_ (det_x result) <= xmax <= img_width)%Z ∧
    (0 <= ymin <= int_ (det_y result))%Z ∧ (int_ (det_y result) <= ymax <= img_height)%Z ∧
    (xmax - xmin <= int_ (det_w result))%Z ∧ (ymax - ymin <= int_ (det_h result))%Z.
Proof.
  intros Hx Hy Hw Hh. apply int_nonneg in Hw, Hh.
  eexists _, _, _, _. split; [reflexivity|].
  pose proof (Z.div_pos _ 2 Hw ltac:(lia)).
  pose proof (Z.div_pos _ 2 Hh ltac:(lia)).
  pose proof (Z.mul_div_le (int_ (det_w result)) 2 ltac:(lia)).
  pose proof (Z.mul_div_le (int_ (det_h result)) 2 ltac:(lia)).
  lia.
Qed.

Lemma rectangle_in_image_witness :
  ∃ xmin ymin xmax ymax,
    rectangle 700 700 (mkdetection "person" 350 350 7 7 1) = (xmin, ymin, xmax, ymax) ∧
    (0 <= xmin <= int_ 350)%Z ∧ (int_ 350 <= xmax <= 700)%Z ∧
    (0 <= ymin <= int_ 350)%Z ∧ (int_ 350 <= ymax <= 700)%Z ∧
    (xmax - xmin <= int_ 7)%Z ∧ (ymax - ymin <= int_ 7)%Z.
Proof.
  apply (rectangle_in_image 700 700 (mkdetection "person" 350 350 7 7 1));
    vm_compute; (split; discriminate) || discriminate.
Defined.

(** ** [show_results] never gets past the first result *)

Lemma show_results_nonempty (img_shape : Z * Z) (result : result_row)
    (rest : list result_row) :
  snd (show_results img_shape (result :: rest)) ≠ Returns.
Proof.
  unfold show_results. cbn [show_each ints].
  destruct (row_x result), (row_y result), (row_w result), (row_h result); cbn; discriminate.
Qed.

(** [show_results] returns only for an empty list of results, after
    [cv2.imshow]. For a list that is not empty it never gets past the first
    result. When the four box values of that result are numbers, it prints
    the line of the result and raises [TypeError] at the call of
    [draw_box], which gets three arguments for its four parameters. When
    one of them is an infinity or NaN, [int] raises [OverflowError] or
    [ValueError] before anything is printed. Either way nothing is drawn
    and [cv2.imshow] is not reached. *)
Theorem show_results_raises (img_shape : Z * Z) (results : list result_row) :
  (results = [] → show_results img_shape results = ([Imshow], Returns)) ∧
  (∀ result rest, results = result :: rest →
     (∀ x y w h,
        row_x result = finite x → row_y result = finite y →
        row_w result = finite w → row_h result = finite h →
        show_results img_shape results
        = ([Console (row_name result) (int_ x) (int_ y) (int_ w) (int_ h)
                    (row_score result)],
           Raises_TypeError)) ∧
     (¬ (is_number (row_x result) ∧ is_number (row_y result) ∧
         is_number (row_w result) ∧ is_number (row_h result)) →
      show_results img_shape results = ([], Raises_OverflowError) ∨
      show_results img_shape results = ([], Raises_ValueError)) ∧
     (snd (show_results img_shape results) ≠ Returns) ∧
     (Imshow ∉ fst (show_results img_shape results)) ∧
     (∀ img name box score,
        Drawn img name box score ∉ fst (show_results img_shape results))).
Proof.
  split; [by intros ->|]. intros result rest ->. split; [|split; [|split]].
  - intros x y w h Hx Hy Hw Hh. unfold show_results. cbn [show_each ints].
    by rewrite Hx, Hy, Hw, Hh.
  - intros Hnot. unfold show_results. cbn [show_each ints].
    destruct (row_x result) as [x| | |] eqn:Ex; cbn; auto.
    destruct (row_y result) as [y| | |] eqn:Ey; cbn; auto.
    destruct (row_w result) as [w| | |] eqn:Ew; cbn; auto.
    destruct (row_h result) as [h| | |] eqn:Eh; cbn; auto.
    exfalso. apply Hnot. unfold is_number. eauto 10.
  - apply show_results_nonempty.
  - unfold show_results. cbn [show_each ints].
    destruct (row_x result), (row_y result), (row_w result), (row_h result); cbn;
      (split; [|intros ????]); intros Hin;
      solve [ by apply elem_of_nil in Hin
            | apply elem_of_cons in Hin as [Hin|Hin];
              [discriminate|by apply elem_of_nil in Hin] ].
Qed.

(** ** [main] *)

Lemma last_cons_default {A} (l : list A) (x d : A) : List.last (x :: l) d = List.last l x.
Proof.
  revert x d. induction l as [|y l IH]; intros x d; [done|].
  change (List.last (x :: y :: l) d) with (List.last (y :: l) d).
  by rewrite !IH.
Qed.

Lemma main_loop_detects (opts : list (string * string)) (m w i : string) :
  (∀ a, ("-h"%string, a) ∉ opts) →
  main_loop opts m w i =
    [Print ("model file is " ++ option_value "-m" opts m);
     Print ("weight file is " ++ option_value "-w" opts w);
     Print ("image file is " ++ option_value "-i" opts i);
     Detect (option_value "-m" opts m) (option_value "-w" opts w)
            (option_value "-i" opts i)].
Proof.
  revert m w i. induction opts as [|[opt arg] opts IH]; intros m w i Hh; [done|].
  assert (Hrest : ∀ a, ("-h"%string, a) ∉ opts).
  { intros a Ha. apply (Hh a). by right. }
  assert (Hlast : ∀ name d, option_value name ((opt, arg) :: opts) d
            = option_value name opts (if String.eqb opt name then arg else d)).
  { intros name d. unfold option_value. cbn [List.filter fst].
    destruct (String.eqb opt name); [|done]. rewrite fmap_cons. cbn [snd].
    apply last_cons_default. }
  cbn [main_loop]. destruct (String.eqb opt "-h") eqn:Eh.
  { apply String.eqb_eq in Eh as ->. exfalso. apply (Hh arg). by left. }
  rewrite !Hlast.
  destruct (String.eqb opt "-m") eqn:Em.
  { apply String.eqb_eq in Em as ->. by rewrite IH. }
  destruct (String.eqb opt "-w") eqn:Ew.
  { apply String.eqb_eq in Ew as ->. by rewrite IH. }
  destruct (String.eqb opt "-i") eqn:Ei; by rewrite IH.
Qed.

Lemma main_loop_help (opts : list (string * string)) (m w i : string) (a : string) :
  ("-h"%string, a) ∈ opts → ∀ m' w' i', Detect m' w' i' ∉ main_loop opts m w i.
Proof.
  revert m w i. induction opts as [|[opt arg] opts IH]; intros m w i Hin m' w' i';
    [by apply elem_of_nil in Hin|].
  cbn [main_loop]. destruct (String.eqb opt "-h") eqn:Eh.
  { intros Hd. apply list_elem_of_singleton in Hd. discriminate. }
  apply elem_of_cons in Hin as [Heq|Hin].
  { injection Heq as <- <-. done. }
  destruct (String.eqb opt "-m"); [by apply IH|].
  destruct (String.eqb opt "-w"); [by apply IH|].
  destruct (String.eqb opt "-i"); by apply IH.
Qed.

(** [main] calls [detect] exactly when [getopt] returns a list of options
    that is not empty and holds no [-h]; otherwise it prints the usage
    message and returns. *)
Theorem main_detects_iff (getopt : list string → option (list (string * string) * list string))
    (argv : list string) :
  (∃ m w i, Detect m w i ∈ main getopt argv) ↔
  (∃ opts rest, getopt argv = Some (opts, rest) ∧ opts ≠ [] ∧
                ∀ a, ("-h"%string, a) ∉ opts).
Proof.
  unfold main. destruct (getopt argv) as [[opts rest]|] eqn:E.
  - split.
    + intros (m & w & i & Hd). exists opts, rest. split; [done|].
      apply elem_of_cons in Hd as [Hd|Hd]; [done|].
      destruct opts as [|o opts'].
      { apply list_elem_of_singleton in Hd. discriminate. }
      split; [done|]. intros a Ha.
      by apply (main_loop_help (o :: opts') "" "" "" a Ha m w i).
    + intros (opts' & rest' & [= <- <-] & Hne & Hh).
      destruct opts as [|o opts']; [done|].
      rewrite (main_loop_detects (o :: opts') "" "" "" Hh).
      eexists _, _, _. right. right. right. right. left.
  - split.
    + intros (m & w & i & Hd). apply list_elem_of_singleton in Hd. discriminate.
    + intros (opts & rest & ? & _). discriminate.
Qed.

(** When [main] calls [detect], each file name is the argument of the last
    option of its kind, and the empty string when there is none. *)
Theorem main_last_option_wins
    (getopt : list string → option (list (string * string) * list string))
    (argv : list string) (opts : list (string * string)) (rest : list string) :
  getopt argv = Some (opts, rest) → opts ≠ [] → (∀ a, ("-h"%string, a) ∉ opts) →
  main getopt argv =
    [PrintOpts opts;
     Print ("model file is " ++ option_value "-m" opts "");
     Print ("weight file is " ++ option_value "-w" opts "");
     Print ("image file is " ++ option_value "-i" opts "");
     Detect (option_value "-m" opts "") (option_value "-w" opts "")
            (option_value "-i" opts "")].
Proof.
  intros E Hne Hh. unfold main. rewrite E.
  destruct opts as [|o opts']; [done|].
  by rewrite (main_loop_detects (o :: opts') "" "" "" Hh).
Qed.

Lemma main_last_option_wins_witness :
  let opts := [("-m", "a.prototxt"); ("-w", "b.caffemodel"); ("-m", "c.prototxt");
               ("-i", "d.jpg")]%string in
  main (fun _ => Some (opts, [])) [] =
    [PrintOpts opts;
     Print ("model file is " ++ option_value "-m" opts "");
     Print ("weight file is " ++ option_value "-w" opts "");
     Print ("image file is " ++ option_value "-i" opts "");
     Detect (option_value "-m" opts "") (option_value "-w" opts "")
            (option_value "-i" opts "")].
Proof.
  apply (main_last_option_wins
           (fun _ => Some ([("-m", "a.prototxt"); ("-w", "b.caffemodel");
                            ("-m", "c.prototxt"); ("-i", "d.jpg")]%string, [])) [] _ []).
  - reflexivity.
  - discriminate.
  - intros a Ha. repeat (apply elem_of_cons in Ha as [Ha|Ha]; [discriminate|]).
    by apply elem_of_nil in Ha.
Defined.

(** ** [detect]: the result handed to [show_results] *)

(** The last two steps of [detect]: [show_results] on the result of
    [get_candidate_objects] returns exactly when no score reaches the
    threshold; as soon as one does, the call raises. *)
Theorem show_results_returns_iff_nothing_detected argsort (img_size : Z * Z) (s : buffer) :
  argsort_spec argsort →
  length s = raw_length num_classes num_boxes grid_size →
  ∃ boxes probs s' result,
    parse_yolo_output img_size s = Ok (boxes, probs) s' ∧
    get_candidate_objects argsort img_size s = Ok result s' ∧
    (snd (show_results img_size (row_of <$> result)) = Returns
     ↔ ∀ x, x ∈ probs → (x < threshold)%Q).
Proof.
  intros Hspec Hlen.
  destruct (result_nil_iff argsort img_size s Hspec Hlen)
    as (boxes & probs & s' & result & Hrun & Hres & Hnil).
  exists boxes, probs, s', result. split; [done|]. split; [done|].
  rewrite <- Hnil. destruct result as [|d result']; [done|].
  split; [|done]. intros Hret. rewrite fmap_cons in Hret.
  by apply show_results_nonempty in Hret.
Qed.

Lemma show_results_returns_iff_nothing_detected_witness :
  ∃ boxes probs s' result,
    parse_yolo_output (700%Z, 700%Z) scenario_buffer = Ok (boxes, probs) s' ∧
    get_candidate_objects insertion_argsort (700%Z, 700%Z) scenario_buffer
      = Ok result s' ∧
    (snd (show_results (700%Z, 700%Z) (row_of <$> result)) = Returns
     ↔ ∀ x, x ∈ probs → (x < threshold)%Q).
Proof.
  apply (show_results_returns_iff_nothing_detected
           insertion_argsort (700%Z, 700%Z) scenario_buffer).
  - exact insertion_argsort_spec.
  - reflexivity.
Defined.
